(** * spotify-dxt: the command dispatch and input-safety layer of
      [server/index.js], embedded in Rocq.

    JavaScript strings are sequences of UTF-16 code units, numbers are
    the values of IEEE doubles (NaN, the two infinities and the finite
    rationals), the argument bag is a finite map from property names to
    values, and the request handler is a computation that records every
    call of [osascript] and every line written to the console.

    The built-ins the code relies on ([JSON.stringify], [slice], [trim],
    [Number], [Number.isInteger], template literals, [RegExp.test]) follow
    ECMA-262; the literal grammar of the interpreter that runs the scripts
    follows the AppleScript Language Guide. *)

From Stdlib Require Import ZArith NArith QArith Qround Qcanon Ascii String List Bool Lia.
From stdpp Require Import base option list strings gmap.

Local Open Scope N_scope.
Local Open Scope list_scope.

(** ** JavaScript strings *)

Module JsString.

(** A string is the list of its UTF-16 code units. *)
Definition jsstring := list N.

(** The code units of an ASCII literal of the source text. *)
Definition lit (s : string) : jsstring :=
  List.map N_of_ascii (list_ascii_of_string s).

Definition dq : N := 34.          (* the double quote *)
Definition backslash : N := 92.

(** [`"${s}"`]: a piece of text between two double quotes. *)
Definition quoted (s : jsstring) : jsstring := dq :: s ++ [dq].

(** WhiteSpace and LineTerminator code units (ECMA-262 12.2, 12.3):
    what [String.prototype.trim] strips and [StringToNumber] skips. *)
Definition is_white_space (c : N) : bool :=
  (c =? 9) || (c =? 10) || (c =? 11) || (c =? 12) || (c =? 13) || (c =? 32)
  || (c =? 160) || (c =? 5760) || ((8192 <=? c) && (c <=? 8202))
  || (c =? 8232) || (c =? 8233) || (c =? 8239) || (c =? 8287)
  || (c =? 12288) || (c =? 65279).

Fixpoint trim_start (s : jsstring) : jsstring :=
  match s with
  | c :: t => if is_white_space c then trim_start t else s
  | [] => []
  end.

Definition trim_end (s : jsstring) : jsstring := rev (trim_start (rev s)).

(** [String.prototype.trim]. *)
Definition trim (s : jsstring) : jsstring := trim_end (trim_start s).

(** [String.prototype.slice(start, end)]: negative indices count from the
    end, both are clamped to the string, an empty range gives [""]. *)
Definition slice (s : jsstring) (start stop : Z) : jsstring :=
  let len := Z.of_nat (length s) in
  let from := if (start <? 0)%Z then Z.max (len + start) 0 else Z.min start len in
  let to := if (stop <? 0)%Z then Z.max (len + stop) 0 else Z.min stop len in
  if (to <=? from)%Z then []
  else take (Z.to_nat (to - from)) (drop (Z.to_nat from) s).

(** Decimal digits of a natural number, most significant first. *)
Fixpoint digits_fuel (fuel : nat) (n : N) (acc : jsstring) : jsstring :=
  match fuel with
  | O => acc
  | S fuel' =>
      let acc' := (48 + n mod 10) :: acc in
      if n / 10 =? 0 then acc' else digits_fuel fuel' (n / 10) acc'
  end.

Definition decimal (n : N) : jsstring := digits_fuel (S (N.to_nat (N.log2 n))) n [].

End JsString.
Export JsString.

(** ** [JSON.stringify] on strings *)

Module Json.

Definition is_leading_surrogate (c : N) : bool := (55296 <=? c) && (c <=? 56319).
Definition is_trailing_surrogate (c : N) : bool := (56320 <=? c) && (c <=? 57343).

(** One lower-case hexadecimal digit. *)
Definition hex_digit (d : N) : N := if d <? 10 then 48 + d else 87 + d.

(** UnicodeEscape (ECMA-262 25.5.2.4): [\u] and four hexadecimal digits. *)
Definition UnicodeEscape (c : N) : jsstring :=
  [backslash; 117; hex_digit (c / 4096 mod 16); hex_digit (c / 256 mod 16);
   hex_digit (c / 16 mod 16); hex_digit (c mod 16)].

(** A code point that is not a surrogate: the two-character escapes of
    table 75, [\uXXXX] for the other control characters, itself otherwise. *)
Definition quote_code_point (c : N) : jsstring :=
  if c =? 8 then [backslash; 98]
  else if c =? 9 then [backslash; 116]
  else if c =? 10 then [backslash; 110]
  else if c =? 12 then [backslash; 102]
  else if c =? 13 then [backslash; 114]
  else if c =? dq then [backslash; dq]
  else if c =? backslash then [backslash; backslash]
  else if c <? 32 then UnicodeEscape c
  else [c].

(** The loop of QuoteJSONString (ECMA-262 25.5.2.3) over the code points
    of the string: a leading surrogate followed by a trailing one is one
    code point and is copied, a lone surrogate is escaped. *)
Fixpoint quote_code_points (s : jsstring) : jsstring :=
  match s with
  | [] => []
  | c :: t =>
      if is_leading_surrogate c then
        match t with
        | d :: t' =>
            if is_trailing_surrogate d then c :: d :: quote_code_points t'
            else UnicodeEscape c ++ quote_code_points t
        | [] => UnicodeEscape c
        end
      else if is_trailing_surrogate c then UnicodeEscape c ++ quote_code_points t
      else quote_code_point c ++ quote_code_points t
  end.

Definition QuoteJSONString (s : jsstring) : jsstring := quoted (quote_code_points s).

End Json.
Export Json.

(** ** Numbers *)

Module JsNumber.

(** The Number type: NaN, the two infinities, or a finite value.  The two
    zeros are one value here: the code below cannot tell them apart
    ([Number.isInteger], [<], [>] and template literals treat [-0] as [0]). *)
Inductive number :=
  | NaN
  | Infinity (negative : bool)
  | Finite (q : Q).

Definition of_Z (z : Z) : number := Finite (inject_Z z).

Definition Qltb (a b : Q) : bool := negb (Qle_bool b a).

(** [a < b] on numbers: false as soon as one side is NaN. *)
Definition lt (a b : number) : bool :=
  match a, b with
  | NaN, _ | _, NaN => false
  | Infinity true, Infinity true => false
  | Infinity true, _ => true
  | _, Infinity true => false
  | Infinity false, _ => false
  | _, Infinity false => true
  | Finite x, Finite y => Qltb x y
  end.

(** [a > b] is [b < a]. *)
Definition gt (a b : number) : bool := lt b a.

(** [Number.isFinite] and [Number.isInteger] applied to a number. *)
Definition isFinite (a : number) : bool :=
  match a with Finite _ => true | _ => false end.

Definition isInteger (a : number) : bool :=
  match a with
  | Finite q => Pos.eqb (Qden (Qred q)) 1
  | _ => false
  end.

(** [is_int a n]: the number [a] is the integer [n]. *)
Definition is_int (a : number) (n : Z) : Prop :=
  match a with
  | Finite q => q == inject_Z n
  | _ => False
  end.

(** *** Rounding a rational to the nearest double (ties to even) *)

Definition round_half_even (n d : Z) : Z :=
  let (quo, rem) := Z.div_eucl n d in
  match (2 * rem ?= d)%Z with
  | Lt => quo
  | Gt => (quo + 1)%Z
  | Eq => if Z.even quo then quo else (quo + 1)%Z
  end.

(** [floor (log2 (n / d))] for positive [n] and [d]. *)
Definition floor_log2 (n d : Z) : Z :=
  let k := (Z.log2 n - Z.log2 d)%Z in
  let above := if (0 <=? k)%Z then (d * 2 ^ k <=? n)%Z else (d <=? n * 2 ^ (- k))%Z in
  if above then k else (k - 1)%Z.

(** The Number value of a real: 53 bits of precision, exponents down to
    the subnormal [2^-1074], overflow to an infinity at [2^1024]. *)
Definition binary64 (q : Q) : number :=
  let n := Qnum q in
  let d := Zpos (Qden q) in
  if (n =? 0)%Z then Finite 0
  else
    let a := Z.abs n in
    let e := Z.max (floor_log2 a d - 52) (-1074) in
    let m := if (0 <=? e)%Z then round_half_even a (d * 2 ^ e)
             else round_half_even (a * 2 ^ (- e)) d in
    if (0 <=? e)%Z && (2 ^ 1024 <=? m * 2 ^ e)%Z then Infinity (n <? 0)%Z
    else
      let v := if (0 <=? e)%Z then inject_Z (m * 2 ^ e)
               else Qred (Qmake m (Z.to_pos (2 ^ (- e)))) in
      Finite (if (n <? 0)%Z then Qopp v else v).

(** *** [Number::toString] (ECMA-262 6.1.6.1.20, radix 10) *)

Definition pow10 (z : Z) : Q := Qpower 10 z.

(** The [n] with [10^(n-1) <= x < 10^n], for a positive [x]: a lower
    estimate from the binary logarithm, then a short search upwards. *)
Fixpoint exponent10_from (fuel : nat) (x : Q) (n : Z) : Z :=
  match fuel with
  | O => n
  | S fuel' => if Qle_bool (pow10 n) x then exponent10_from fuel' x (n + 1) else n
  end.

Definition exponent10 (x : Q) : Z :=
  let k := (Z.log2 (Qnum x) - Z.log2 (Zpos (Qden x)))%Z in
  exponent10_from 8 x ((k - 1) * 30103 / 100000 - 1).

Definition same_number (a b : number) : bool :=
  match a, b with
  | Finite x, Finite y => Qeq_bool x y
  | Infinity s, Infinity s' => Bool.eqb s s'
  | _, _ => false
  end.

(** The digits [s], their count [k] and the exponent [n] of step 5: the
    least [k] for which some [s * 10^(n-k)] rounds to [x]; of two such [s]
    the one closer to [x], the even one on a tie. *)
Fixpoint shortest_from (fuel : nat) (x : Q) (n k : Z) : Z * Z * Z :=
  let scale := pow10 (n - k) in
  let lo := Qfloor (x / scale) in
  let hi := (lo + 1)%Z in
  let ok (s : Z) := same_number (binary64 (inject_Z s * scale)) (Finite x) in
  let up := if (hi =? 10 ^ k)%Z then (n + 1, k, 10 ^ (k - 1))%Z else (n, k, hi) in
  match fuel with
  | O => (n, k, lo)
  | S fuel' =>
      match ok lo, ok hi with
      | true, false => (n, k, lo)
      | false, true => up
      | true, true =>
          match Qcompare (x - inject_Z lo * scale) (inject_Z hi * scale - x) with
          | Lt => (n, k, lo)
          | Gt => up
          | Eq => if Z.even lo then (n, k, lo) else up
          end
      | false, false => shortest_from fuel' x n (k + 1)
      end
  end.

Definition zeros (n : Z) : jsstring := repeat 48%N (Z.to_nat n).

Definition positive_to_string (x : Q) : jsstring :=
  let '(n, k, s) := shortest_from 17 x (exponent10 x) 1 in
  let ds := decimal (Z.to_N s) in
  if ((-5 <=? n) && (n <=? 21))%Z then
    if (k <=? n)%Z then ds ++ zeros (n - k)
    else if (0 <? n)%Z then take (Z.to_nat n) ds ++ lit "." ++ drop (Z.to_nat n) ds
    else lit "0." ++ zeros (- n) ++ ds
  else
    let e := (n - 1)%Z in
    let tail := lit "e" ++ (if (e <? 0)%Z then lit "-" else lit "+")
                  ++ decimal (Z.to_N (Z.abs e)) in
    if (k =? 1)%Z then ds ++ tail
    else take 1 ds ++ lit "." ++ drop 1 ds ++ tail.

Definition Number_toString (a : number) : jsstring :=
  match a with
  | NaN => lit "NaN"
  | Infinity false => lit "Infinity"
  | Infinity true => lit "-Infinity"
  | Finite q =>
      let x := Qred q in
      if Qeq_bool x 0 then lit "0"
      else if Qltb x 0 then lit "-" ++ positive_to_string (Qopp x)
      else positive_to_string x
  end.

End JsNumber.
Export JsNumber.

(** ** Values *)

Module JsValue.

(** The values an argument can hold after [JSON.parse]: an absent
    property reads as [undefined]; arrays and objects are kept as
    [JObj], with the one thing the code can observe of them besides
    their type and truthiness, the text their [toString()] returns
    (what ToPrimitive yields for them, their [valueOf] returning the
    object itself). *)
Inductive jsval :=
  | JUndefined
  | JNull
  | JBool (b : bool)
  | JNum (n : number)
  | JStr (s : jsstring)
  | JObj (toString : jsstring).

Inductive jstype := TyUndefined | TyObject | TyBoolean | TyNumber | TyString.

(** The [typeof] operator. *)
Definition typeof (v : jsval) : jstype :=
  match v with
  | JUndefined => TyUndefined
  | JNull => TyObject
  | JBool _ => TyBoolean
  | JNum _ => TyNumber
  | JStr _ => TyString
  | JObj _ => TyObject
  end.

Definition jstype_eqb (a b : jstype) : bool :=
  match a, b with
  | TyUndefined, TyUndefined | TyObject, TyObject | TyBoolean, TyBoolean
  | TyNumber, TyNumber | TyString, TyString => true
  | _, _ => false
  end.

(** ToBoolean: what [if (v)], [!v], [v && ...] and [v ? ... : ...] test. *)
Definition truthy (v : jsval) : bool :=
  match v with
  | JUndefined | JNull => false
  | JBool b => b
  | JNum NaN => false
  | JNum (Infinity _) => true
  | JNum (Finite q) => negb (Qeq_bool q 0)
  | JStr s => match s with [] => false | _ => true end
  | JObj _ => true
  end.

(** *** StringToNumber (ECMA-262 7.1.4.1.1) *)

Definition is_digit (c : N) : bool := (48 <=? c) && (c <=? 57).

(** The value of a digit in a radix up to 16, if it is one. *)
Definition digit_in (radix c : N) : option N :=
  let v := if is_digit c then Some (c - 48)
           else if (97 <=? c) && (c <=? 102) then Some (c - 87)
           else if (65 <=? c) && (c <=? 70) then Some (c - 55)
           else None in
  match v with
  | Some d => if d <? radix then Some d else None
  | None => None
  end.

Definition is_digit_in (radix c : N) : bool :=
  match digit_in radix c with Some _ => true | None => false end.

Definition digits_value (radix : N) (ds : jsstring) : Z :=
  fold_left (fun acc c => (acc * Z.of_N radix + Z.of_N (default 0%N (digit_in radix c)))%Z) ds 0%Z.

Definition all_digits (radix : N) (ds : jsstring) : bool :=
  match ds with [] => false | _ => forallb (is_digit_in radix) ds end.

Fixpoint span (p : N -> bool) (s : jsstring) : jsstring * jsstring :=
  match s with
  | c :: t => if p c then let (a, b) := span p t in (c :: a, b) else ([], s)
  | [] => ([], [])
  end.

(** ExponentPart, or nothing: the power of ten it stands for. *)
Definition exponent_part (s : jsstring) : option Z :=
  match s with
  | [] => Some 0%Z
  | c :: t =>
      if (c =? 101) || (c =? 69) then
        let '(neg, ds) := match t with
                          | 43 :: u => (false, u)
                          | 45 :: u => (true, u)
                          | _ => (false, t)
                          end in
        if all_digits 10 ds then
          Some (if neg then (- digits_value 10 ds)%Z else digits_value 10 ds)
        else None
      else None
  end.

(** The mathematical value of a StrUnsignedDecimalLiteral other than
    [Infinity]: digits, an optional fraction, an optional exponent, with
    a digit on at least one side of the point. *)
Definition unsigned_decimal (s : jsstring) : option Q :=
  let (ip, r1) := span is_digit s in
  let (fp, r2) := match r1 with
                  | 46 :: r => span is_digit r
                  | _ => ([], r1)
                  end in
  let ds := ip ++ fp in
  match ds, exponent_part r2 with
  | _ :: _, Some e =>
      Some (inject_Z (digits_value 10 ds) * pow10 (e - Z.of_nat (length fp)))%Q
  | _, _ => None
  end.

Definition list_eqb (a b : jsstring) : bool := bool_decide (a = b).

Definition str_decimal (s : jsstring) : number :=
  let '(neg, u) := match s with
                   | 43 :: u => (false, u)
                   | 45 :: u => (true, u)
                   | _ => (false, s)
                   end in
  if list_eqb u (lit "Infinity") then Infinity neg
  else match unsigned_decimal u with
       | Some mv => binary64 (if neg then Qopp mv else mv)
       | None => NaN
       end.

Definition non_decimal (radix : N) (ds : jsstring) : number :=
  if all_digits radix ds then binary64 (inject_Z (digits_value radix ds)) else NaN.

Definition StringToNumber (s : jsstring) : number :=
  match trim s with
  | [] => Finite 0
  | 48 :: 120 :: ds | 48 :: 88 :: ds => non_decimal 16 ds
  | 48 :: 111 :: ds | 48 :: 79 :: ds => non_decimal 8 ds
  | 48 :: 98 :: ds | 48 :: 66 :: ds => non_decimal 2 ds
  | t => str_decimal t
  end.

(** ToNumber, which is what [Number(value)] computes. *)
Definition ToNumber (v : jsval) : number :=
  match v with
  | JUndefined => NaN
  | JNull => Finite 0
  | JBool b => if b then Finite 1 else Finite 0
  | JNum n => n
  | JStr s => StringToNumber s
  | JObj repr => StringToNumber repr
  end.

End JsValue.
Export JsValue.

(** ** Regular expressions *)

Module RegExp.

(** The pattern syntax the source uses: characters, classes given by
    their ranges, sequence, alternation, [+], and [*] (which the
    derivative of [+] needs). *)
Inductive regex :=
  | Never
  | Eps
  | Chr (c : N)
  | Class (ranges : list (N * N))
  | Cat (r1 r2 : regex)
  | Alt (r1 r2 : regex)
  | Plus (r : regex)
  | Star (r : regex).

Definition in_ranges (ranges : list (N * N)) (c : N) : bool :=
  existsb (fun '(lo, hi) => (lo <=? c) && (c <=? hi)) ranges.

(** A literal piece of pattern text. *)
Fixpoint Lit (s : jsstring) : regex :=
  match s with
  | [] => Eps
  | c :: t => Cat (Chr c) (Lit t)
  end.

(** Alternation of several branches: [(a|b|c)]. *)
Fixpoint AltOf (rs : list regex) : regex :=
  match rs with
  | [] => Never
  | [r] => r
  | r :: rs' => Alt r (AltOf rs')
  end.

(** The strings a pattern matches from its first to its last character. *)
Inductive Lang : regex -> jsstring -> Prop :=
  | LEps : Lang Eps []
  | LChr c : Lang (Chr c) [c]
  | LClass ranges c : in_ranges ranges c = true -> Lang (Class ranges) [c]
  | LCat r1 r2 s1 s2 : Lang r1 s1 -> Lang r2 s2 -> Lang (Cat r1 r2) (s1 ++ s2)
  | LAltL r1 r2 s : Lang r1 s -> Lang (Alt r1 r2) s
  | LAltR r1 r2 s : Lang r2 s -> Lang (Alt r1 r2) s
  | LPlus r s1 s2 : Lang r s1 -> Lang (Star r) s2 -> Lang (Plus r) (s1 ++ s2)
  | LStarNil r : Lang (Star r) []
  | LStarApp r s1 s2 : Lang r s1 -> Lang (Star r) s2 -> Lang (Star r) (s1 ++ s2).

(** Matching by derivatives. *)
Fixpoint nullable (r : regex) : bool :=
  match r with
  | Never | Chr _ | Class _ => false
  | Eps | Star _ => true
  | Cat r1 r2 => nullable r1 && nullable r2
  | Alt r1 r2 => nullable r1 || nullable r2
  | Plus r => nullable r
  end.

Fixpoint deriv (c : N) (r : regex) : regex :=
  match r with
  | Never | Eps => Never
  | Chr c' => if c =? c' then Eps else Never
  | Class ranges => if in_ranges ranges c then Eps else Never
  | Cat r1 r2 =>
      if nullable r1 then Alt (Cat (deriv c r1) r2) (deriv c r2)
      else Cat (deriv c r1) r2
  | Alt r1 r2 => Alt (deriv c r1) (deriv c r2)
  | Plus r => Cat (deriv c r) (Star r)
  | Star r => Cat (deriv c r) (Star r)
  end.

Fixpoint matches (r : regex) (s : jsstring) : bool :=
  match s with
  | [] => nullable r
  | c :: t => matches (deriv c r) t
  end.

(** [/^r$/.test(s)] for a pattern without flags: with both anchors and no
    [m] flag the match has to span the whole of [s]. *)
Definition test_anchored (r : regex) (s : jsstring) : bool := matches r s.

End RegExp.
Export RegExp.

(** ** The helpers of [server/index.js] *)

(** *** Computations that throw and that talk to the outside *)

Module Effects.

(** What [console.error] is given after its label: a piece of text, or
    an [Error] object.  Of the object the model keeps the message; the
    console prints all the object carries besides (stack, exit code,
    command line, captured output). *)
Inductive console_arg :=
  | LoggedText (s : jsstring)
  | LoggedError (message : jsstring).

(** What a call leaves behind: the [execFile] calls and the lines written
    with [console.error]. *)
Inductive event :=
  | ExecFile (file : jsstring) (args : list jsstring) (timeout maxBuffer : Z)
  | ConsoleError (label : jsstring) (detail : console_arg).

(** How a piece of code ends: with a value, or by throwing an [Error].
    An [Error] is represented by its [message], the one field that the
    handler reads; where the whole object is handed to the console, the
    event says so with [LoggedError]. *)
Inductive completion (A : Type) :=
  | Normal (a : A)
  | Throw (message : jsstring).
Arguments Normal {A} a.
Arguments Throw {A} message.

Definition M (A : Type) : Type := list event * completion A.

Definition ret {A} (a : A) : M A := ([], Normal a).
Definition throw {A} (message : jsstring) : M A := ([], Throw message).
Definition emit (e : event) : M unit := ([e], Normal tt).

Definition bind {A B} (m : M A) (f : A -> M B) : M B :=
  match m with
  | (t, Normal a) => let (t', r) := f a in (t ++ t', r)
  | (t, Throw e) => (t, Throw e)
  end.

(** [try { m } catch (error) { h error }], the caught [Error] being
    represented by its message. *)
Definition try_catch {A} (m : M A) (h : jsstring -> M A) : M A :=
  match m with
  | (t, Throw e) => let (t', r) := h e in (t ++ t', r)
  | (t, Normal a) => (t, Normal a)
  end.

Definition trace {A} (m : M A) : list event := fst m.
Definition outcome {A} (m : M A) : completion A := snd m.

(** The scripts handed to the executor, in order: of each [execFile]
    call the argument after the [-e] flag. *)
Definition executor_calls (t : list event) : list jsstring :=
  flat_map (fun e => match e with
                     | ExecFile _ args _ _ => [nth 1 args []]
                     | ConsoleError _ _ => []
                     end) t.

Global Instance M_ret : MRet M := @ret.
Global Instance M_bind : MBind M := fun A B f m => bind m f.

End Effects.
Export Effects.


(** *** Escaping and validation *)

Module Server.

Definition OSASCRIPT_TIMEOUT : Z := 30000.

(** [escapeAppleScriptString(str)]: [""] for anything but a string, else
    [JSON.stringify(str).slice(1, -1)]. *)
Definition escapeAppleScriptString (str : jsval) : jsstring :=
  match str with
  | JStr s => slice (QuoteJSONString s) 1 (-1)
  | _ => []
  end.

(** ToString, as a template literal [`${v}`] applies it. *)
Definition ToString (v : jsval) : jsstring :=
  match v with
  | JUndefined => lit "undefined"
  | JNull => lit "null"
  | JBool b => if b then lit "true" else lit "false"
  | JNum n => Number_toString n
  | JStr s => s
  | JObj repr => repr
  end.

(** [validateInteger(value, name, min = -Infinity, max = Infinity)]. *)
Definition validateInteger (value : jsval) (name : jsstring)
    (min max : option number) : M number :=
  let min := default (Infinity true) min in
  let max := default (Infinity false) max in
  let num := ToNumber value in
  if negb (isInteger num) then throw (name ++ lit " must be an integer")
  else if lt num min || gt num max then
    throw (name ++ lit " must be between " ++ Number_toString min
                ++ lit " and " ++ Number_toString max)
  else ret num.

(** [validateNumber(value, name, min = -Infinity, max = Infinity)]. *)
Definition validateNumber (value : jsval) (name : jsstring)
    (min max : option number) : M number :=
  let min := default (Infinity true) min in
  let max := default (Infinity false) max in
  let num := ToNumber value in
  if negb (isFinite num) then throw (name ++ lit " must be a valid number")
  else if lt num min || gt num max then
    throw (name ++ lit " must be between " ++ Number_toString min
                ++ lit " and " ++ Number_toString max)
  else ret num.

(** [validateBoolean(value, name)]. *)
Definition validateBoolean (value : jsval) (name : jsstring) : M jsval :=
  if negb (jstype_eqb (typeof value) TyBoolean) then
    throw (name ++ lit " must be a boolean")
  else ret value.

Definition spotify_types : list jsstring :=
  [lit "track"; lit "album"; lit "artist"; lit "playlist"; lit "show";
   lit "episode"; lit "user"; lit "collection"].

Definition alnum_class : regex := Class [(97, 122); (65, 90); (48, 57)].

(** [:[a-zA-Z0-9]+], and the body of
    [/^spotify:(track|album|artist|playlist|show|episode|user|collection)(:[a-zA-Z0-9]+)+$/]. *)
Definition colon_segment : regex := Cat (Chr 58) (Plus alnum_class).

Definition spotifyUriPattern : regex :=
  Cat (Lit (lit "spotify:"))
      (Cat (AltOf (List.map Lit spotify_types)) (Plus colon_segment)).

(** [isValidSpotifyUri(uri)]. *)
Definition isValidSpotifyUri (uri : jsval) : bool :=
  match uri with
  | JStr s => test_anchored spotifyUriPattern s
  | _ => false
  end.

(** *** The external executor *)

(** What [execFile] comes back with: the two output streams, or the
    rejection (non-zero exit, timeout, too much output, no such program)
    with the message of its [Error].  That message is built by
    [execFile]; after a non-zero exit it holds the command line and
    what the process wrote to its diagnostic stream. *)
Inductive exec_result :=
  | Exited (stdout stderr : jsstring)
  | Failed (message : jsstring).

Definition executor := jsstring -> exec_result.

(** [executeAppleScript(script)].  The diagnostics of a run that exits
    are logged as text; in the [catch] branch it is the [Error] object
    that is logged, and thrown again. *)
Definition executeAppleScript (osascript : executor) (script : jsstring) : M jsstring :=
  try_catch
    (emit (ExecFile (lit "osascript") [lit "-e"; script]
                    OSASCRIPT_TIMEOUT (1024 * 1024));;
     match osascript script with
     | Exited stdout stderr =>
         (if truthy (JStr stderr)
          then emit (ConsoleError (lit "AppleScript stderr:") (LoggedText stderr))
          else ret tt);;
         ret (trim stdout)
     | Failed message => throw message
     end)
    (fun error =>
       emit (ConsoleError (lit "Failed to execute AppleScript:")
                          (LoggedError error));;
       throw error).

(** *** The tool catalogue *)

Record property := {
  prop_name : string;
  prop_type : string;
  prop_description : string;
  minimum : option Z;
  maximum : option Z }.

Record descriptor := {
  name : string;
  description : string;
  properties : list property;
  required : list string;
  readOnlyHint : bool;
  idempotentHint : option bool }.

Definition no_params (n d : string) (ro : bool) (idem : option bool) : descriptor :=
  {| name := n; description := d; properties := []; required := [];
     readOnlyHint := ro; idempotentHint := idem |}.

(** The answer to a [ListTools] request. *)
Definition tools : list descriptor :=
  [ no_params "spotify_play" "Resume playback" false (Some true);
    no_params "spotify_pause" "Pause playback" false (Some true);
    no_params "spotify_playpause" "Toggle play/pause" false (Some false);
    no_params "spotify_next_track" "Skip to the next track" false (Some false);
    no_params "spotify_previous_track" "Skip to the previous track" false (Some false);
    {| name := "spotify_play_track";
       description := "Start playback of a track by URI";
       properties :=
         [ {| prop_name := "uri"; prop_type := "string";
              prop_description := "The Spotify URI of the track to play";
              minimum := None; maximum := None |};
           {| prop_name := "context"; prop_type := "string";
              prop_description := "Optional context URI (playlist, album, etc)";
              minimum := None; maximum := None |} ];
       required := ["uri"];
       readOnlyHint := false; idempotentHint := Some true |};
    no_params "spotify_get_current_track"
      "Get information about the current playing track" true None;
    no_params "spotify_get_player_state"
      "Get the current player state (playing, paused, stopped)" true None;
    {| name := "spotify_set_volume";
       description := "Set the sound output volume (0-100)";
       properties :=
         [ {| prop_name := "volume"; prop_type := "integer";
              prop_description := "Volume level (0-100)";
              minimum := Some 0%Z; maximum := Some 100%Z |} ];
       required := ["volume"];
       readOnlyHint := false; idempotentHint := Some true |};
    no_params "spotify_get_volume" "Get the current volume" true None;
    {| name := "spotify_set_position";
       description := "Set the player position within the current track";
       properties :=
         [ {| prop_name := "position"; prop_type := "number";
              prop_description := "Position in seconds";
              minimum := Some 0%Z; maximum := None |} ];
       required := ["position"];
       readOnlyHint := false; idempotentHint := Some true |};
    no_params "spotify_get_position"
      "Get the player position within the current track" true None;
    {| name := "spotify_set_repeat";
       description := "Turn repeat on or off";
       properties :=
         [ {| prop_name := "enabled"; prop_type := "boolean";
              prop_description := "Enable or disable repeat";
              minimum := None; maximum := None |} ];
       required := ["enabled"];
       readOnlyHint := false; idempotentHint := Some true |};
    no_params "spotify_get_repeat" "Get repeat status" true None;
    {| name := "spotify_set_shuffle";
       description := "Turn shuffle on or off";
       properties :=
         [ {| prop_name := "enabled"; prop_type := "boolean";
              prop_description := "Enable or disable shuffle";
              minimum := None; maximum := None |} ];
       required := ["enabled"];
       readOnlyHint := false; idempotentHint := Some true |};
    no_params "spotify_get_shuffle" "Get shuffle status" true None ].

(** The names under which the catalogue advertises its tools. *)
Definition tool_names : list jsstring := List.map (fun d => lit (name d)) tools.

End Server.
Export Server.

(** ** The request handler *)

Module Handler.

(** A [CallTool] request: [request.params.name] and
    [request.params.arguments]; a missing member reads as [undefined]
    ([JUndefined], resp. [None]). *)
Record request := {
  params_name : jsval;
  params_arguments : option (gmap string jsval) }.

Record text_content := { type : jsstring; text : jsstring }.

(** The object the handler returns; [isError] is only present on the
    failure path. *)
Record envelope := { content : list text_content; isError : option bool }.

(** [args.key]. *)
Definition get (args : gmap string jsval) (key : string) : jsval :=
  default JUndefined (args !! key).

(** The [case] labels of the [switch]. *)
Inductive tool :=
  | spotify_play | spotify_pause | spotify_playpause | spotify_next_track
  | spotify_previous_track | spotify_play_track | spotify_get_current_track
  | spotify_get_player_state | spotify_set_volume | spotify_get_volume
  | spotify_set_position | spotify_get_position | spotify_set_repeat
  | spotify_get_repeat | spotify_set_shuffle | spotify_get_shuffle.

Definition case_labels : list (jsstring * tool) :=
  [ (lit "spotify_play", spotify_play);
    (lit "spotify_pause", spotify_pause);
    (lit "spotify_playpause", spotify_playpause);
    (lit "spotify_next_track", spotify_next_track);
    (lit "spotify_previous_track", spotify_previous_track);
    (lit "spotify_play_track", spotify_play_track);
    (lit "spotify_get_current_track", spotify_get_current_track);
    (lit "spotify_get_player_state", spotify_get_player_state);
    (lit "spotify_set_volume", spotify_set_volume);
    (lit "spotify_get_volume", spotify_get_volume);
    (lit "spotify_set_position", spotify_set_position);
    (lit "spotify_get_position", spotify_get_position);
    (lit "spotify_set_repeat", spotify_set_repeat);
    (lit "spotify_get_repeat", spotify_get_repeat);
    (lit "spotify_set_shuffle", spotify_set_shuffle);
    (lit "spotify_get_shuffle", spotify_get_shuffle) ].

(** [switch (toolName)]: the first label strictly equal to the value, if
    any; a value that is not a string equals none of them. *)
Definition switch_case (toolName : jsval) : option tool :=
  match toolName with
  | JStr s => snd <$> List.find (fun c => list_eqb s (fst c)) case_labels
  | _ => None
  end.

(** [`tell application "Spotify" to ${command}`]. *)
Definition tell_spotify (command : jsstring) : jsstring :=
  lit "tell application " ++ quoted (lit "Spotify") ++ lit " to " ++ command.

Definition nl : jsstring := [10].

(** The script of [spotify_get_current_track], line by line as the
    template literal spells it. *)
Definition current_track_script : jsstring :=
  nl ++
  lit "              tell application " ++ quoted (lit "Spotify") ++ nl ++
  lit "                if player state is not stopped then" ++ nl ++
  lit "                  set trackName to name of current track" ++ nl ++
  lit "                  set trackArtist to artist of current track" ++ nl ++
  lit "                  set trackAlbum to album of current track" ++ nl ++
  lit "                  set trackDuration to duration of current track" ++ nl ++
  lit "                  set trackPopularity to popularity of current track" ++ nl ++
  lit "                  set trackId to id of current track" ++ nl ++
  lit "                  set trackUrl to spotify url of current track" ++ nl ++
  lit "                  return " ++ quoted (lit "Name: ") ++ lit " & trackName & "
    ++ quoted (lit "\nArtist: ") ++ lit " & trackArtist & "
    ++ quoted (lit "\nAlbum: ") ++ lit " & trackAlbum & "
    ++ quoted (lit "\nDuration: ") ++ lit " & trackDuration & "
    ++ quoted (lit " ms\nPopularity: ") ++ lit " & trackPopularity & "
    ++ quoted (lit "\nID: ") ++ lit " & trackId & "
    ++ quoted (lit "\nURL: ") ++ lit " & trackUrl" ++ nl ++
  lit "                else" ++ nl ++
  lit "                  return " ++ quoted (lit "No track is currently playing") ++ nl ++
  lit "                end if" ++ nl ++
  lit "              end tell" ++ nl ++
  lit "            ".

(** The script [spotify_play_track] builds from the two arguments once
    they have passed validation. *)
Definition playScript (uri context : jsval) : jsstring :=
  let safeUri := escapeAppleScriptString uri in
  let safeContext :=
    if truthy context then JStr (escapeAppleScriptString context) else JNull in
  if truthy safeContext then
    tell_spotify (lit "play track " ++ quoted safeUri
                    ++ lit " in context " ++ quoted (ToString safeContext))
  else tell_spotify (lit "play track " ++ quoted safeUri).

(** One arm of the [switch]: validation, script, execution. *)
Definition run_tool (osascript : executor) (t : tool)
    (args : gmap string jsval) : M jsstring :=
  match t with
  | spotify_play => executeAppleScript osascript (tell_spotify (lit "play"))
  | spotify_pause => executeAppleScript osascript (tell_spotify (lit "pause"))
  | spotify_playpause => executeAppleScript osascript (tell_spotify (lit "playpause"))
  | spotify_next_track => executeAppleScript osascript (tell_spotify (lit "next track"))
  | spotify_previous_track =>
      executeAppleScript osascript (tell_spotify (lit "previous track"))
  | spotify_play_track =>
      if negb (isValidSpotifyUri (get args "uri")) then
        throw (lit "Invalid Spotify URI format")
      else if truthy (get args "context")
              && negb (isValidSpotifyUri (get args "context")) then
        throw (lit "Invalid Spotify context URI format")
      else executeAppleScript osascript (playScript (get args "uri") (get args "context"))
  | spotify_get_current_track => executeAppleScript osascript current_track_script
  | spotify_get_player_state =>
      executeAppleScript osascript (tell_spotify (lit "return player state as string"))
  | spotify_set_volume =>
      safeVolume ← validateInteger (get args "volume") (lit "volume")
                     (Some (of_Z 0)) (Some (of_Z 100));
      executeAppleScript osascript
        (tell_spotify (lit "set sound volume to " ++ Number_toString safeVolume))
  | spotify_get_volume =>
      executeAppleScript osascript (tell_spotify (lit "return sound volume"))
  | spotify_set_position =>
      safePosition ← validateNumber (get args "position") (lit "position")
                       (Some (of_Z 0)) None;
      executeAppleScript osascript
        (tell_spotify (lit "set player position to " ++ Number_toString safePosition))
  | spotify_get_position =>
      executeAppleScript osascript (tell_spotify (lit "return player position"))
  | spotify_set_repeat =>
      safeRepeat ← validateBoolean (get args "enabled") (lit "enabled");
      executeAppleScript osascript
        (tell_spotify (lit "set repeating to " ++ ToString safeRepeat))
  | spotify_get_repeat =>
      executeAppleScript osascript (tell_spotify (lit "return repeating"))
  | spotify_set_shuffle =>
      safeShuffle ← validateBoolean (get args "enabled") (lit "enabled");
      executeAppleScript osascript
        (tell_spotify (lit "set shuffling to " ++ ToString safeShuffle))
  | spotify_get_shuffle =>
      executeAppleScript osascript (tell_spotify (lit "return shuffling"))
  end.

Definition text_block (s : jsstring) : text_content :=
  {| type := lit "text"; text := s |}.

(** The two objects the handler can return. *)
Definition success (result : jsstring) : envelope :=
  {| content := [text_block result]; isError := None |}.

Definition failure (message : jsstring) : envelope :=
  {| content := [text_block (lit "Error: " ++ message)]; isError := Some true |}.

(** The [CallToolRequestSchema] handler.  Its completion is what the
    caller of the handler gets: [Normal] with the returned envelope, or
    [Throw] when the promise is rejected. *)
Definition handler (osascript : executor) (req : request) : M envelope :=
  if negb (truthy (params_name req)) then throw (lit "Tool name is required")
  else
    let toolName := params_name req in
    let args := default ∅ (params_arguments req) in
    try_catch
      (result ← match switch_case toolName with
                | Some t => run_tool osascript t args
                | None => throw (lit "Unknown tool: " ++ ToString toolName)
                end;
       ret (success result))
      (fun message => ret (failure message)).

(** A request that names a tool and carries an argument bag. *)
Definition call (tool_name : string) (args : gmap string jsval) : request :=
  {| params_name := JStr (lit tool_name); params_arguments := Some args |}.

(** An executor that answers every script with one line and no
    diagnostics: a player at rest, for the worked examples. *)
Definition quiet_player : executor := fun _ => Exited (lit "ok" ++ nl) [].

(** What the [try]/[catch] around the [switch] makes of one arm: the
    same events, and an envelope whichever way the arm ends. *)
Definition conclude (m : M jsstring) : M envelope :=
  (trace m, Normal match outcome m with
                   | Normal result => success result
                   | Throw message => failure message
                   end).

End Handler.
Export Handler.

(** ** The earlier server *)

(** The repository also holds the server at version 0.0.1.  Of it only
    the escaping function is modelled, the one that the function above
    replaced. *)
Module Version001.

(** [s.replace(/c/g, by)] for a pattern that is one character and a
    replacement without [$]. *)
Definition replace_all (c : N) (by_text s : jsstring) : jsstring :=
  flat_map (fun x => if x =? c then by_text else [x]) s.

(** [escapeAppleScriptString(str)]: backslashes doubled, then a backslash
    put before every double quote. *)
Definition escapeAppleScriptString (str : jsval) : jsstring :=
  match str with
  | JStr s =>
      replace_all dq [backslash; dq]
        (replace_all backslash [backslash; backslash] s)
  | _ => []
  end.

End Version001.

(** ** The target language: AppleScript text literals *)

Module AppleScript.

(** The interpreter is not part of the repository.  Its literal grammar
    is taken from the AppleScript Language Guide (class [text], Special
    String Characters): a literal runs from a double quote to the next
    double quote that no backslash precedes; inside, a backslash followed
    by a double quote or by a backslash stands for that character, a
    backslash followed by [n], [r] or [t] for linefeed, return and tab;
    any other character stands for itself, and a backslash before any
    other character is a syntax error. *)
Definition unescape (c : N) : option N :=
  if c =? dq then Some dq
  else if c =? backslash then Some backslash
  else if c =? 110 then Some 10
  else if c =? 114 then Some 13
  else if c =? 116 then Some 9
  else None.

(** A script seen as the lexer sees it first: text outside literals, and
    literals with their decoded contents. *)
Inductive token :=
  | Code (text : jsstring)
  | Literal (contents : jsstring).

Inductive mode :=
  | InCode (text : jsstring)
  | InLiteral (contents : jsstring).

Definition code (text : jsstring) : list token :=
  match text with [] => [] | _ => [Code text] end.

(** One pass over the script; [None] when a literal is left open or holds
    an escape the language does not have. *)
Fixpoint scan (s : jsstring) (m : mode) : option (list token) :=
  match s, m with
  | [], InCode text => Some (code text)
  | [], InLiteral _ => None
  | c :: t, InCode text =>
      if c =? dq then (fun ts => code text ++ ts) <$> scan t (InLiteral [])
      else scan t (InCode (text ++ [c]))
  | c :: t, InLiteral contents =>
      if c =? dq then cons (Literal contents) <$> scan t (InCode [])
      else if c =? backslash then
        match t with
        | e :: t' =>
            match unescape e with
            | Some x => scan t' (InLiteral (contents ++ [x]))
            | None => None
            end
        | [] => None
        end
      else scan t (InLiteral (contents ++ [c]))
  end.

Definition tokens (script : jsstring) : option (list token) := scan script (InCode []).

(** The text a piece of script denotes when the whole of it is one literal. *)
Definition parse_literal (s : jsstring) : option jsstring :=
  match tokens s with
  | Some [Literal contents] => Some contents
  | _ => None
  end.

(** The strings whose JSON escapes are all among the escapes above:
    no control character except tab, linefeed and return (the others
    come out as backslash-b, backslash-f or backslash-u), and no
    surrogate outside a pair (it comes out as backslash-u). *)
Definition reads_back (c : N) : bool :=
  (32 <=? c) || (c =? 9) || (c =? 10) || (c =? 13).

Inductive representable : jsstring -> Prop :=
  | rep_nil : representable []
  | rep_unit c t :
      is_leading_surrogate c = false -> is_trailing_surrogate c = false ->
      reads_back c = true -> representable t -> representable (c :: t)
  | rep_pair hi lo t :
      is_leading_surrogate hi = true -> is_trailing_surrogate lo = true ->
      representable t -> representable (hi :: lo :: t).

End AppleScript.
Export AppleScript.

(** ** The grammar of Spotify URIs, as the specification words it *)

Module UriGrammar.

Definition colon : N := 58.

Definition is_alnum (c : N) : bool :=
  ((48 <=? c) && (c <=? 57)) || ((65 <=? c) && (c <=? 90))
  || ((97 <=? c) && (c <=? 122)).

(** The characters a URI of the grammar is made of. *)
Definition uri_char (c : N) : bool := is_alnum c || (c =? colon).

(** [<type>] *)
Definition uri_type (s : jsstring) : Prop :=
  s = lit "track" \/ s = lit "album" \/ s = lit "artist" \/ s = lit "playlist"
  \/ s = lit "show" \/ s = lit "episode" \/ s = lit "user" \/ s = lit "collection".

(** [<segment>]: one or more alphanumeric characters. *)
Definition segment (s : jsstring) : Prop :=
  s <> [] /\ Forall (fun c => is_alnum c = true) s.

(** [spotify:<type>:<segment>(:<segment>)*] *)
Definition spotify_uri (s : jsstring) : Prop :=
  exists ty seg segs,
    uri_type ty /\ segment seg /\ Forall segment segs /\
    s = lit "spotify:" ++ ty ++ [colon] ++ seg
          ++ concat (List.map (fun x => colon :: x) segs).

End UriGrammar.
Export UriGrammar.

(** ** The handler of the earlier server *)

(** Version 0.0.1 has the same catalogue names, [switch], executor
    adapter and envelope; it has no validators for numbers and booleans
    and writes [args.volume], [args.position] and [args.enabled] into the
    script as they come. *)
Module Version001Handler.

Definition playScript (uri context : jsval) : jsstring :=
  let safeUri := Version001.escapeAppleScriptString uri in
  let safeContext :=
    if truthy context then JStr (Version001.escapeAppleScriptString context)
    else JNull in
  if truthy safeContext then
    tell_spotify (lit "play track " ++ quoted safeUri
                    ++ lit " in context " ++ quoted (ToString safeContext))
  else tell_spotify (lit "play track " ++ quoted safeUri).

Definition run_tool (osascript : executor) (t : tool)
    (args : gmap string jsval) : M jsstring :=
  match t with
  | spotify_play => executeAppleScript osascript (tell_spotify (lit "play"))
  | spotify_pause => executeAppleScript osascript (tell_spotify (lit "pause"))
  | spotify_playpause => executeAppleScript osascript (tell_spotify (lit "playpause"))
  | spotify_next_track => executeAppleScript osascript (tell_spotify (lit "next track"))
  | spotify_previous_track =>
      executeAppleScript osascript (tell_spotify (lit "previous track"))
  | spotify_play_track =>
      if negb (isValidSpotifyUri (get args "uri")) then
        throw (lit "Invalid Spotify URI format")
      else if truthy (get args "context")
              && negb (isValidSpotifyUri (get args "context")) then
        throw (lit "Invalid Spotify context URI format")
      else executeAppleScript osascript (playScript (get args "uri") (get args "context"))
  | spotify_get_current_track => executeAppleScript osascript current_track_script
  | spotify_get_player_state =>
      executeAppleScript osascript (tell_spotify (lit "return player state as string"))
  | spotify_set_volume =>
      executeAppleScript osascript
        (tell_spotify (lit "set sound volume to " ++ ToString (get args "volume")))
  | spotify_get_volume =>
      executeAppleScript osascript (tell_spotify (lit "return sound volume"))
  | spotify_set_position =>
      executeAppleScript osascript
        (tell_spotify (lit "set player position to " ++ ToString (get args "position")))
  | spotify_get_position =>
      executeAppleScript osascript (tell_spotify (lit "return player position"))
  | spotify_set_repeat =>
      executeAppleScript osascript
        (tell_spotify (lit "set repeating to " ++ ToString (get args "enabled")))
  | spotify_get_repeat =>
      executeAppleScript osascript (tell_spotify (lit "return repeating"))
  | spotify_set_shuffle =>
      executeAppleScript osascript
        (tell_spotify (lit "set shuffling to " ++ ToString (get args "enabled")))
  | spotify_get_shuffle =>
      executeAppleScript osascript (tell_spotify (lit "return shuffling"))
  end.

Definition handler (osascript : executor) (req : request) : M envelope :=
  if negb (truthy (params_name req)) then throw (lit "Tool name is required")
  else
    let toolName := params_name req in
    let args := default ∅ (params_arguments req) in
    try_catch
      (result ← match switch_case toolName with
                | Some t => run_tool osascript t args
                | None => throw (lit "Unknown tool: " ++ ToString toolName)
                end;
       ret (success result))
      (fun message => ret (failure message)).

End Version001Handler.

(** ** Vocabulary for the properties of the handler *)

Module Vocabulary.

(** The argument bag a request is run with. *)
Definition args_of (req : request) : gmap string jsval :=
  default ∅ (params_arguments req).

(** Two argument bags that hold the same values under the given keys. *)
Definition agree_on (keys : list string) (a b : gmap string jsval) : Prop :=
  forall k, In k keys -> get a k = get b k.

(** Two answers of an executor that differ at most in what a successful
    run wrote to its diagnostic stream: two exits with the same standard
    output, or two failures with the same message (a message is
    [execFile]'s to build, and may itself quote the diagnostics). *)
Definition alike_but_exit_stderr (x y : exec_result) : Prop :=
  match x, y with
  | Exited out _, Exited out' _ => out = out'
  | Failed m, Failed m' => m = m'
  | _, _ => False
  end.

(** The characters a number is written with: digits, point, exponent
    mark and signs. *)
Definition numeric_char (c : N) : bool :=
  is_digit c || (c =? 46) || (c =? 101) || (c =? 43) || (c =? 45).

(** The literals the script templates of the handler spell out, as the
    interpreter decodes them. *)
Definition template_literals : list jsstring :=
  [ lit "Spotify"; lit "Name: "; nl ++ lit "Artist: "; nl ++ lit "Album: ";
    nl ++ lit "Duration: "; lit " ms" ++ nl ++ lit "Popularity: ";
    nl ++ lit "ID: "; nl ++ lit "URL: "; lit "No track is currently playing" ].

(** The characters found outside literals: letters, digits, space, line
    feed, and the four signs [&], [.], [+] and [-]. *)
Definition code_char (c : N) : bool :=
  is_alnum c || (c =? 32) || (c =? 10) || (c =? 38) || (c =? 46)
  || (c =? 43) || (c =? 45).

(** A token of a template: such code, or one of the template literals. *)
Definition fixed_token (t : token) : bool :=
  match t with
  | Literal l => bool_decide (l ∈ template_literals)
  | Code c => forallb code_char c
  end.

(** A token that carries nothing of the request but, inside a literal,
    the [uri] or the [context] argument unchanged. *)
Definition harmless (args : gmap string jsval) (t : token) : Prop :=
  match t with
  | Literal l =>
      In l template_literals \/ get args "uri" = JStr l \/ get args "context" = JStr l
  | Code c => Forall (fun x => code_char x = true) c
  end.

(** The text of a value that is a string, nothing for any other value:
    what [escapeAppleScriptString] starts from. *)
Definition text_of (v : jsval) : jsstring :=
  match v with JStr s => s | _ => [] end.

(** A character that does not end a line. *)
Definition within_line (c : N) : bool := negb (c =? 10) && negb (c =? 13).

(** The scripts of the tools without parameters. *)
Definition fixed_scripts : list jsstring :=
  [ tell_spotify (lit "play"); tell_spotify (lit "pause");
    tell_spotify (lit "playpause"); tell_spotify (lit "next track");
    tell_spotify (lit "previous track"); current_track_script;
    tell_spotify (lit "return player state as string");
    tell_spotify (lit "return sound volume");
    tell_spotify (lit "return player position");
    tell_spotify (lit "return repeating"); tell_spotify (lit "return shuffling") ].

(** Every script the handler can hand to the executor for a given
    argument bag. *)
Inductive sendable (args : gmap string jsval) : jsstring -> Prop :=
  | send_fixed script :
      In script fixed_scripts -> sendable args script
  | send_track u :
      get args "uri" = JStr u -> isValidSpotifyUri (JStr u) = true ->
      truthy (get args "context") = false ->
      sendable args (tell_spotify (lit "play track " ++ quoted u))
  | send_track_in_context u c :
      get args "uri" = JStr u -> isValidSpotifyUri (JStr u) = true ->
      get args "context" = JStr c -> isValidSpotifyUri (JStr c) = true ->
      sendable args (tell_spotify (lit "play track " ++ quoted u
                                     ++ lit " in context " ++ quoted c))
  | send_volume n :
      is_int (ToNumber (get args "volume")) n -> (0 <= n <= 100)%Z ->
      sendable args (tell_spotify (lit "set sound volume to "
                                     ++ decimal (Z.to_N n)))
  | send_position q :
      ToNumber (get args "position") = Finite q -> (0 <= q)%Q ->
      sendable args (tell_spotify (lit "set player position to "
                                     ++ Number_toString (Finite q)))
  | send_flag property (b : bool) :
      property = "repeating" \/ property = "shuffling" ->
      get args "enabled" = JBool b ->
      sendable args (tell_spotify (lit "set " ++ lit property ++ lit " to "
                                     ++ (if b then lit "true" else lit "false"))).

Definition is_number_or_absent (v : jsval) : Prop :=
  typeof v = TyNumber \/ v = JUndefined.

(** Reading JSON escapes back: the inverse of [quote_code_points], used
    to tell escaped strings apart. *)
Definition hex_value (c : N) : option N :=
  if is_digit c then Some (c - 48)
  else if (97 <=? c) && (c <=? 102) then Some (c - 87)
  else None.

Definition simple_escape (e : N) : option N :=
  if e =? 98 then Some 8
  else if e =? 116 then Some 9
  else if e =? 110 then Some 10
  else if e =? 102 then Some 12
  else if e =? 114 then Some 13
  else if e =? dq then Some dq
  else if e =? backslash then Some backslash
  else None.

Fixpoint json_unquote (s : jsstring) : option jsstring :=
  match s with
  | [] => Some []
  | c :: t =>
      if c =? backslash then
        match t with
        | e :: t' =>
            if e =? 117 then
              match t' with
              | h1 :: h2 :: h3 :: h4 :: t'' =>
                  match hex_value h1, hex_value h2, hex_value h3, hex_value h4 with
                  | Some a, Some b, Some c', Some d =>
                      cons (a * 4096 + b * 256 + c' * 16 + d) <$> json_unquote t''
                  | _, _, _, _ => None
                  end
              | _ => None
              end
            else
              match simple_escape e with
              | Some x => cons x <$> json_unquote t'
              | None => None
              end
        | [] => None
        end
      else cons c <$> json_unquote t
  end.

End Vocabulary.
Export Vocabulary.

(** ** Correctness of the matcher *)

Section MatcherCorrect.

Local Hint Constructors Lang : core.

Lemma Lang_Eps_inv s : Lang Eps s -> s = [].
Proof. by inversion 1. Qed.

Lemma Lang_Chr_inv c s : Lang (Chr c) s -> s = [c].
Proof. by inversion 1. Qed.

Lemma Lang_Class_inv ranges s :
  Lang (Class ranges) s -> exists c, s = [c] /\ in_ranges ranges c = true.
Proof. inversion 1; subst; eauto. Qed.

Lemma Lang_Cat_inv r1 r2 s :
  Lang (Cat r1 r2) s -> exists s1 s2, s = s1 ++ s2 /\ Lang r1 s1 /\ Lang r2 s2.
Proof. inversion 1; subst; eauto. Qed.

Lemma Lang_Alt_inv r1 r2 s : Lang (Alt r1 r2) s -> Lang r1 s \/ Lang r2 s.
Proof. inversion 1; subst; eauto. Qed.

Lemma Lang_Plus_inv r s :
  Lang (Plus r) s -> exists s1 s2, s = s1 ++ s2 /\ Lang r s1 /\ Lang (Star r) s2.
Proof. inversion 1; subst; eauto. Qed.

Lemma Lang_Never_inv s : Lang Never s -> False.
Proof. inversion 1. Qed.

(** A non-empty match of [r*] starts with a non-empty match of [r]. *)
Lemma Lang_Star_cons r c s :
  Lang (Star r) (c :: s) ->
  exists s1 s2, s = s1 ++ s2 /\ Lang r (c :: s1) /\ Lang (Star r) s2.
Proof.
  intros H. remember (Star r) as sr eqn:Er. remember (c :: s) as w eqn:Ew.
  induction H as [| | | | | | |r'|r' s1 s2 H1 _ H2 IH2]; try discriminate.
  simplify_eq/=.
  destruct s1 as [|c' s1']; simpl in Ew.
  - by apply IH2.
  - simplify_eq/=. eauto.
Qed.

Lemma nullable_Lang r : nullable r = true <-> Lang r [].
Proof.
  induction r as [| | | |r1 IH1 r2 IH2|r1 IH1 r2 IH2|r IH|r IH]; simpl.
  - split; [discriminate | intros H; destruct (Lang_Never_inv _ H)].
  - split; auto.
  - split; [discriminate | intros H; apply Lang_Chr_inv in H; discriminate].
  - split; [discriminate |].
    intros H; apply Lang_Class_inv in H as (c & ? & _); discriminate.
  - rewrite andb_true_iff, IH1, IH2. split.
    + intros [H1 H2]. change (@nil N) with (@nil N ++ []). auto.
    + intros H. apply Lang_Cat_inv in H as (s1 & s2 & E & H1 & H2).
      symmetry in E. apply app_eq_nil in E as [-> ->]. auto.
  - rewrite orb_true_iff, IH1, IH2. split.
    + intros [H|H]; auto.
    + apply Lang_Alt_inv.
  - rewrite IH. split.
    + intros H. change (@nil N) with (@nil N ++ []). auto.
    + intros H. apply Lang_Plus_inv in H as (s1 & s2 & E & H1 & H2).
      symmetry in E. apply app_eq_nil in E as [-> ->]. auto.
  - split; auto.
Qed.

Lemma deriv_Lang c r : forall s, Lang (deriv c r) s <-> Lang r (c :: s).
Proof.
  induction r as [| |c'|ranges|r1 IH1 r2 IH2|r1 IH1 r2 IH2|r IH|r IH];
    intros s; simpl.
  - split; intros H; destruct (Lang_Never_inv _ H).
  - split; intros H; [destruct (Lang_Never_inv _ H)|].
    apply Lang_Eps_inv in H; discriminate.
  - destruct (N.eqb_spec c c') as [->|Hne]; split; intros H.
    + apply Lang_Eps_inv in H as ->. auto.
    + apply Lang_Chr_inv in H. simplify_eq/=. auto.
    + destruct (Lang_Never_inv _ H).
    + apply Lang_Chr_inv in H. congruence.
  - destruct (in_ranges ranges c) eqn:Hc; split; intros H.
    + apply Lang_Eps_inv in H as ->. auto.
    + apply Lang_Class_inv in H as (c0 & E & _). simplify_eq/=. auto.
    + destruct (Lang_Never_inv _ H).
    + apply Lang_Class_inv in H as (c0 & E & Hc0). simplify_eq/=. congruence.
  - assert (Hcat : Lang (Cat (deriv c r1) r2) s ->  Lang (Cat r1 r2) (c :: s)).
    { intros H. apply Lang_Cat_inv in H as (s1 & s2 & -> & H1 & H2).
      apply IH1 in H1. change (c :: s1 ++ s2) with ((c :: s1) ++ s2). auto. }
    assert (Hinv : Lang (Cat r1 r2) (c :: s) ->
                   Lang (Cat (deriv c r1) r2) s \/ (Lang r1 [] /\ Lang r2 (c :: s))).
    { intros H. apply Lang_Cat_inv in H as (s1 & s2 & E & H1 & H2).
      destruct s1 as [|c1 s1']; simpl in E.
      - right. subst s2. auto.
      - simplify_eq/=. left. apply IH1 in H1. auto. }
    destruct (nullable r1) eqn:Hn; split; intros H.
    + apply Lang_Alt_inv in H as [H|H]; [by apply Hcat|].
      apply IH2 in H. apply nullable_Lang in Hn.
      change (c :: s) with ([] ++ c :: s). auto.
    + apply Hinv in H as [H|[_ H]]; [auto|]. apply IH2 in H. auto.
    + by apply Hcat.
    + apply Hinv in H as [H|[H _]]; [auto|].
      apply nullable_Lang in H. congruence.
  - split; intros H.
    + apply Lang_Alt_inv in H as [H|H]; [apply IH1 in H | apply IH2 in H]; auto.
    + apply Lang_Alt_inv in H as [H|H]; [apply IH1 in H | apply IH2 in H]; auto.
  - split; intros H.
    + apply Lang_Cat_inv in H as (s1 & s2 & -> & H1 & H2).
      apply IH in H1. change (c :: s1 ++ s2) with ((c :: s1) ++ s2). auto.
    + apply Lang_Plus_inv in H as (s1 & s2 & E & H1 & H2).
      destruct s1 as [|c1 s1']; simpl in E.
      * subst s2. apply Lang_Star_cons in H2 as (t1 & t2 & -> & Ht1 & Ht2).
        apply IH in Ht1. auto.
      * simplify_eq/=. apply IH in H1. auto.
  - split; intros H.
    + apply Lang_Cat_inv in H as (s1 & s2 & -> & H1 & H2).
      apply IH in H1. change (c :: s1 ++ s2) with ((c :: s1) ++ s2). auto.
    + apply Lang_Star_cons in H as (t1 & t2 & -> & Ht1 & Ht2).
      apply IH in Ht1. auto.
Qed.

Lemma matches_Lang s : forall r, matches r s = true <-> Lang r s.
Proof.
  induction s as [|c s IH]; intros r; simpl.
  - apply nullable_Lang.
  - rewrite IH. apply deriv_Lang.
Qed.

End MatcherCorrect.

(** ** The pattern and the grammar *)

Section PatternIsGrammar.

Local Hint Constructors Lang : core.

Lemma Lang_Lit t s : Lang (Lit t) s <-> s = t.
Proof.
  revert s. induction t as [|c t IH]; intros s; simpl.
  - split; [apply Lang_Eps_inv | intros ->; auto].
  - split.
    + intros H. apply Lang_Cat_inv in H as (s1 & s2 & -> & H1 & H2).
      apply Lang_Chr_inv in H1 as ->. apply IH in H2 as ->. done.
    + intros ->. change (c :: t) with ([c] ++ t). constructor; [auto|by apply IH].
Qed.

Lemma Lang_AltOf rs s : Lang (AltOf rs) s <-> exists r, In r rs /\ Lang r s.
Proof.
  induction rs as [|r rs IH]; simpl.
  - split; [intros H; destruct (Lang_Never_inv _ H) | intros (? & [] & _)].
  - destruct rs as [|r' rs'].
    + split; [intros H; exists r; auto | intros (? & [<-|[]] & H); done].
    + split.
      * intros H. apply Lang_Alt_inv in H as [H|H]; [exists r; auto|].
        apply IH in H as (r0 & Hin & H). exists r0; auto.
      * intros (r0 & [<-|Hin] & H); [auto|].
        apply LAltR, IH. eauto.
Qed.

(** [r*] matches the concatenations of matches of [r]. *)
Lemma Lang_Star_concat r s :
  Lang (Star r) s <-> exists ss, Forall (Lang r) ss /\ s = concat ss.
Proof.
  split.
  - intros H. remember (Star r) as sr eqn:E.
    induction H as [| | | | | | |r'|r' s1 s2 H1 _ H2 IH2]; try discriminate.
    + exists []. auto.
    + simplify_eq. destruct (IH2 eq_refl) as (ss & Hss & ->).
      exists (s1 :: ss). auto.
  - intros (ss & Hss & ->). induction Hss as [|x ss Hx _ IH]; simpl; auto.
Qed.

Lemma in_alnum_ranges c :
  in_ranges [(97, 122); (65, 90); (48, 57)] c = is_alnum c.
Proof.
  unfold in_ranges, is_alnum; simpl.
  destruct (97 <=? c), (c <=? 122), (65 <=? c), (c <=? 90), (48 <=? c), (c <=? 57);
    reflexivity.
Qed.

Lemma Lang_alnum s : Lang alnum_class s <-> exists c, s = [c] /\ is_alnum c = true.
Proof.
  unfold alnum_class. split.
  - intros H. apply Lang_Class_inv in H as (c & -> & Hc).
    rewrite in_alnum_ranges in Hc. eauto.
  - intros (c & -> & Hc). constructor. by rewrite in_alnum_ranges.
Qed.

Lemma concat_alnum ss :
  Forall (Lang alnum_class) ss -> Forall (fun c => is_alnum c = true) (concat ss).
Proof.
  induction 1 as [|x ss Hx _ IH]; simpl; [constructor|].
  apply Lang_alnum in Hx as (c & -> & Hc). by constructor.
Qed.

(** [[a-zA-Z0-9]+] is a segment. *)
Lemma Lang_segment s : Lang (Plus alnum_class) s <-> segment s.
Proof.
  split.
  - intros H. apply Lang_Plus_inv in H as (s1 & s2 & -> & H1 & H2).
    apply Lang_alnum in H1 as (c & -> & Hc).
    apply Lang_Star_concat in H2 as (ss & Hss & ->).
    split; [discriminate|]. constructor; [done|by apply concat_alnum].
  - intros [Hne Hall]. destruct s as [|c s]; [done|].
    apply Forall_cons in Hall as [Hc Hs].
    change (c :: s) with ([c] ++ s). constructor.
    + apply Lang_alnum. eauto.
    + apply Lang_Star_concat. exists (List.map (fun x => [x]) s). split.
      * clear Hne Hc. induction Hs as [|x s Hx _ IH]; simpl; constructor; [|done].
        apply Lang_alnum. eauto.
      * clear. induction s as [|x s IH]; simpl; congruence.
Qed.

Lemma Lang_colon_segment s :
  Lang colon_segment s <-> exists seg, segment seg /\ s = colon :: seg.
Proof.
  unfold colon_segment. split.
  - intros H. apply Lang_Cat_inv in H as (s1 & s2 & -> & H1 & H2).
    apply Lang_Chr_inv in H1 as ->. apply Lang_segment in H2. eauto.
  - intros (seg & Hseg & ->). change (colon :: seg) with ([58] ++ seg).
    constructor; [auto|by apply Lang_segment].
Qed.

Lemma Lang_colon_segments s :
  Lang (Star colon_segment) s <->
  exists segs, Forall segment segs /\ s = concat (List.map (fun x => colon :: x) segs).
Proof.
  rewrite Lang_Star_concat. split.
  - intros (ss & Hss & ->). induction Hss as [|x ss Hx _ (segs & Hsegs & E)].
    + exists []. auto.
    + apply Lang_colon_segment in Hx as (seg & Hseg & ->).
      exists (seg :: segs). simpl. rewrite E. auto.
  - intros (segs & Hsegs & ->).
    exists (List.map (fun x => colon :: x) segs). split; [|done].
    induction Hsegs as [|seg segs Hseg _ IH]; simpl; constructor; [|done].
    apply Lang_colon_segment. eauto.
Qed.

Lemma Lang_AltOf_Lit ts s : Lang (AltOf (List.map Lit ts)) s <-> In s ts.
Proof.
  rewrite Lang_AltOf. split.
  - intros (r & Hin & H). apply in_map_iff in Hin as (t & <- & Hin).
    by apply Lang_Lit in H as ->.
  - intros Hin. exists (Lit s). split; [by apply in_map|by apply Lang_Lit].
Qed.

Lemma Lang_uri_type s :
  Lang (AltOf (List.map Lit spotify_types)) s <-> uri_type s.
Proof.
  rewrite Lang_AltOf_Lit. unfold uri_type, spotify_types. cbn [In].
  intuition congruence.
Qed.

(** The pattern matches exactly the strings of the grammar. *)
Lemma spotifyUriPattern_grammar s :
  test_anchored spotifyUriPattern s = true <-> spotify_uri s.
Proof.
  unfold test_anchored. rewrite matches_Lang. unfold spotifyUriPattern, spotify_uri.
  split.
  - intros H. apply Lang_Cat_inv in H as (s1 & s2 & -> & H1 & H2).
    apply Lang_Lit in H1 as ->.
    apply Lang_Cat_inv in H2 as (ty & s3 & -> & Hty & H3).
    apply Lang_uri_type in Hty.
    apply Lang_Plus_inv in H3 as (s4 & s5 & -> & H4 & H5).
    apply Lang_colon_segment in H4 as (seg & Hseg & ->).
    apply Lang_colon_segments in H5 as (segs & Hsegs & ->).
    exists ty, seg, segs. by split_and!.
  - intros (ty & seg & segs & Hty & Hseg & Hsegs & ->).
    constructor; [by apply Lang_Lit|]. constructor; [by apply Lang_uri_type|].
    change ([colon] ++ seg ++ ?x) with ((colon :: seg) ++ x).
    constructor; [apply Lang_colon_segment; eauto|].
    apply Lang_colon_segments. eauto.
Qed.

End PatternIsGrammar.

(** ** The handler, step by step *)

Section HandlerFacts.

Variable osascript : executor.

(** Every run of [executeAppleScript] calls the executor once, with the
    script it was given. *)
Lemma executeAppleScript_calls script :
  executor_calls (trace (executeAppleScript osascript script)) = [script].
Proof.
  unfold executeAppleScript. destruct (osascript script) as [out err|msg] eqn:E.
  - cbn. by destruct err.
  - done.
Qed.

(** It returns the trimmed standard output, or rethrows the failure. *)
Lemma executeAppleScript_outcome script :
  outcome (executeAppleScript osascript script) =
  match osascript script with
  | Exited stdout _ => Normal (trim stdout)
  | Failed message => Throw message
  end.
Proof.
  unfold executeAppleScript. destruct (osascript script) as [out err|msg] eqn:E.
  - cbn. by destruct err.
  - done.
Qed.

(** With a tool name present the handler always returns an envelope. *)
Lemma handler_truthy req :
  truthy (params_name req) = true ->
  handler osascript req =
  conclude match switch_case (params_name req) with
           | Some t => run_tool osascript t (default ∅ (params_arguments req))
           | None => throw (lit "Unknown tool: " ++ ToString (params_name req))
           end.
Proof.
  intros Hname. unfold handler. rewrite Hname. simpl negb. cbv iota.
  generalize (match switch_case (params_name req) with
              | Some t => run_tool osascript t (default ∅ (params_arguments req))
              | None => throw (lit "Unknown tool: " ++ ToString (params_name req))
              end).
  intros [t [r|e]]; unfold conclude; cbn; by rewrite app_nil_r.
Qed.

Lemma handler_falsy req :
  truthy (params_name req) = false ->
  handler osascript req = throw (lit "Tool name is required").
Proof. intros Hname. unfold handler. by rewrite Hname. Qed.

End HandlerFacts.

(** ** Integers among the numbers *)

Section Integers.

Lemma Qred_inject_Z n : Qred (inject_Z n) = inject_Z n.
Proof. apply Qred_identity. simpl. apply Z.gcd_1_r. Qed.

Lemma is_int_of_Z n : is_int (of_Z n) n.
Proof. simpl. reflexivity. Qed.

Lemma is_int_Qred q n : is_int (Finite q) n -> Qred q = inject_Z n.
Proof. simpl. intros H. rewrite <- Qred_inject_Z. by apply Qred_complete. Qed.

Lemma is_int_unique a n m : is_int a n -> is_int a m -> n = m.
Proof.
  destruct a as [| |q]; simpl; try done. intros Hn Hm.
  rewrite Hn in Hm. unfold Qeq in Hm. simpl in Hm. lia.
Qed.

(** [Number.isInteger] holds of the integers and of nothing else. *)
Lemma isInteger_is_int a : isInteger a = true <-> exists n, is_int a n.
Proof.
  destruct a as [| |q]; cbn [isInteger is_int]; [split; [done|intros [? []]]..|].
  split.
  - intros H. apply Pos.eqb_eq in H. exists (Qnum (Qred q)).
    rewrite <- (Qred_correct q) at 1. destruct (Qred q) as [a d]. simpl in *.
    by subst d.
  - intros [n Hn]. change (q == inject_Z n) with (is_int (Finite q) n) in Hn.
    by rewrite (is_int_Qred _ _ Hn).
Qed.

Lemma lt_is_int a n b m : is_int a n -> is_int b m -> lt a b = (n <? m)%Z.
Proof.
  destruct a as [| |p], b as [| |q]; simpl; try done. intros Hp Hq.
  unfold Qltb. destruct (Qle_bool q p) eqn:E.
  - apply Qle_bool_iff in E. rewrite Hp, Hq, <- Zle_Qle in E.
    symmetry. apply Z.ltb_ge. done.
  - symmetry. apply Z.ltb_lt. apply Z.lt_nge. intros Hle.
    assert (Qle_bool q p = true); [|congruence].
    apply Qle_bool_iff. rewrite Hp, Hq, <- Zle_Qle. done.
Qed.

Lemma Number_toString_Qeq p q : p == q -> Number_toString (Finite p) = Number_toString (Finite q).
Proof. intros H. unfold Number_toString. by rewrite (Qred_complete _ _ H). Qed.

(** The integers from 0 to 100 print as their decimal digits. *)
Lemma Number_toString_percent a n :
  is_int a n -> (0 <= n <= 100)%Z -> Number_toString a = decimal (Z.to_N n).
Proof.
  destruct a as [| |q]; simpl is_int; try done. intros Hq Hn.
  rewrite (Number_toString_Qeq _ _ Hq).
  assert (Hall : forallb (fun k => list_eqb (Number_toString (of_Z (Z.of_nat k)))
                                            (decimal (N.of_nat k)))
                         (seq 0 101) = true) by (vm_compute; reflexivity).
  rewrite forallb_forall in Hall. specialize (Hall (Z.to_nat n)).
  rewrite Z2Nat.id in Hall by lia.
  replace (N.of_nat (Z.to_nat n)) with (Z.to_N n) in Hall by lia.
  unfold list_eqb in Hall. apply bool_decide_eq_true in Hall; [done|].
  apply in_seq. lia.
Qed.

End Integers.

(** ** [validateInteger] *)

Section ValidateInteger.

Lemma validateInteger_not_integer value name lo hi :
  (forall n, ~ is_int (ToNumber value) n) ->
  validateInteger value name lo hi = throw (name ++ lit " must be an integer").
Proof.
  intros H. unfold validateInteger.
  destruct (isInteger (ToNumber value)) eqn:E; [|done].
  apply isInteger_is_int in E as [n Hn]. by destruct (H n).
Qed.

Lemma validateInteger_is_int value name lo hi n :
  is_int (ToNumber value) n ->
  validateInteger value name (Some (of_Z lo)) (Some (of_Z hi)) =
  if ((n <? lo) || (hi <? n))%Z then
    throw (name ++ lit " must be between " ++ Number_toString (of_Z lo)
                ++ lit " and " ++ Number_toString (of_Z hi))
  else ret (ToNumber value).
Proof.
  intros Hn. unfold validateInteger. simpl default.
  assert (E : isInteger (ToNumber value) = true) by (apply isInteger_is_int; eauto).
  rewrite E. simpl negb. cbv iota. unfold gt.
  rewrite (lt_is_int _ n _ lo Hn (is_int_of_Z lo)).
  rewrite (lt_is_int _ hi _ n (is_int_of_Z hi) Hn). done.
Qed.

End ValidateInteger.


(** ** Sequencing and the envelope *)

Section Sequencing.

Lemma bind_ret {A B} (a : A) (f : A -> M B) : (x ← ret a; f x) = f a.
Proof. unfold mbind, M_bind, bind, ret. by destruct (f a). Qed.

Lemma bind_throw {A B} message (f : A -> M B) : (x ← throw message; f x) = throw message.
Proof. reflexivity. Qed.

Lemma conclude_throw message : conclude (throw message) = ([], Normal (failure message)).
Proof. reflexivity. Qed.

Lemma conclude_trace m : trace (conclude m) = trace m.
Proof. reflexivity. Qed.

Lemma conclude_outcome m :
  outcome (conclude m) = Normal match outcome m with
                                | Normal result => success result
                                | Throw message => failure message
                                end.
Proof. reflexivity. Qed.

End Sequencing.

(** ** [spotify_set_volume] *)

Section SetVolume.

Variable osascript : executor.

Lemma switch_set_volume :
  switch_case (JStr (lit "spotify_set_volume")) = Some spotify_set_volume.
Proof. reflexivity. Qed.

Lemma set_volume_run args :
  handler osascript (call "spotify_set_volume" args) =
  conclude (run_tool osascript spotify_set_volume args).
Proof. by rewrite handler_truthy. Qed.

(** An integer from 0 to 100, however the argument spells it, reaches the
    executor as its decimal digits. *)
Lemma set_volume_accepts args n :
  is_int (ToNumber (get args "volume")) n -> (0 <= n <= 100)%Z ->
  executor_calls (trace (handler osascript (call "spotify_set_volume" args)))
  = [tell_spotify (lit "set sound volume to " ++ decimal (Z.to_N n))].
Proof.
  intros Hint Hn. rewrite set_volume_run. cbn [run_tool].
  rewrite (validateInteger_is_int _ _ 0 100 n Hint).
  replace ((n <? 0) || (100 <? n))%Z with false by lia.
  rewrite <- (Number_toString_percent _ _ Hint Hn).
  rewrite bind_ret, conclude_trace. apply executeAppleScript_calls.
Qed.

(** An integer outside the range is answered with the range. *)
Lemma set_volume_out_of_range args n :
  is_int (ToNumber (get args "volume")) n -> (n < 0 \/ 100 < n)%Z ->
  handler osascript (call "spotify_set_volume" args)
  = ([], Normal (failure (lit "volume must be between 0 and 100"))).
Proof.
  intros Hint Hn. rewrite set_volume_run. cbn [run_tool].
  rewrite (validateInteger_is_int _ _ 0 100 n Hint).
  replace ((n <? 0) || (100 <? n))%Z with true by lia.
  vm_compute. reflexivity.
Qed.

(** Anything that is not an integer is answered so. *)
Lemma set_volume_not_integer args :
  (forall n, ~ is_int (ToNumber (get args "volume")) n) ->
  handler osascript (call "spotify_set_volume" args)
  = ([], Normal (failure (lit "volume must be an integer"))).
Proof.
  intros Hint. rewrite set_volume_run. cbn [run_tool].
  rewrite (validateInteger_not_integer _ _ _ _ Hint). reflexivity.
Qed.

End SetVolume.

(** ** [spotify_set_repeat] and [spotify_set_shuffle] *)

Section BooleanTools.

Variable osascript : executor.

Lemma validateBoolean_boolean value name :
  typeof value = TyBoolean -> validateBoolean value name = ret value.
Proof. intros H. unfold validateBoolean. by rewrite H. Qed.

Lemma validateBoolean_other value name :
  typeof value <> TyBoolean ->
  validateBoolean value name = throw (name ++ lit " must be a boolean").
Proof. intros H. unfold validateBoolean. by destruct value. Qed.

Lemma boolean_tool_run tool_name t args :
  (tool_name, t) = ("spotify_set_repeat", spotify_set_repeat)
  \/ (tool_name, t) = ("spotify_set_shuffle", spotify_set_shuffle) ->
  handler osascript (call tool_name args) = conclude (run_tool osascript t args).
Proof. intros [E|E]; simplify_eq; by rewrite handler_truthy. Qed.

Lemma boolean_tool_rejects tool_name args :
  tool_name = "spotify_set_repeat" \/ tool_name = "spotify_set_shuffle" ->
  typeof (get args "enabled") <> TyBoolean ->
  handler osascript (call tool_name args)
  = ([], Normal (failure (lit "enabled must be a boolean"))).
Proof.
  intros [->| ->] Hty.
  - rewrite (boolean_tool_run _ spotify_set_repeat) by auto. cbn [run_tool].
    by rewrite (validateBoolean_other _ _ Hty).
  - rewrite (boolean_tool_run _ spotify_set_shuffle) by auto. cbn [run_tool].
    by rewrite (validateBoolean_other _ _ Hty).
Qed.

Lemma boolean_tool_accepts tool_name property args b :
  (tool_name, property) = ("spotify_set_repeat", "repeating")
  \/ (tool_name, property) = ("spotify_set_shuffle", "shuffling") ->
  get args "enabled" = JBool b ->
  executor_calls (trace (handler osascript (call tool_name args)))
  = [tell_spotify (lit "set " ++ lit property ++ lit " to "
                     ++ (if b then lit "true" else lit "false"))].
Proof.
  intros [E|E] Hb; simplify_eq.
  - rewrite (boolean_tool_run _ spotify_set_repeat) by auto. cbn [run_tool].
    rewrite Hb, validateBoolean_boolean, bind_ret, conclude_trace by done.
    apply executeAppleScript_calls.
  - rewrite (boolean_tool_run _ spotify_set_shuffle) by auto. cbn [run_tool].
    rewrite Hb, validateBoolean_boolean, bind_ret, conclude_trace by done.
    apply executeAppleScript_calls.
Qed.

End BooleanTools.

(** ** Names the [switch] does not know *)

Section UnknownTool.

Variable osascript : executor.

Lemma tool_names_labels : tool_names = List.map fst case_labels.
Proof. reflexivity. Qed.

Lemma switch_case_None v :
  (forall n, In n tool_names -> v <> JStr n) -> switch_case v = None.
Proof.
  intros H. destruct v as [| | | |s|]; try done. unfold switch_case.
  destruct (List.find _ case_labels) as [[n t]|] eqn:E; [|done].
  apply find_some in E as [Hin Heq]. simpl in Heq.
  unfold list_eqb in Heq. apply bool_decide_eq_true in Heq. subst n.
  destruct (H s); [|done]. rewrite tool_names_labels.
  change s with (fst (s, t)). by apply in_map.
Qed.

Lemma switch_case_Some v t :
  switch_case v = Some t -> exists n, In n tool_names /\ v = JStr n.
Proof.
  destruct v as [| | | |s|]; try done. unfold switch_case.
  destruct (List.find _ case_labels) as [[n t']|] eqn:E; [|done]. intros _.
  apply find_some in E as [Hin Heq]. simpl in Heq.
  unfold list_eqb in Heq. apply bool_decide_eq_true in Heq. subst n.
  exists s. split; [|done]. rewrite tool_names_labels.
  change s with (fst (s, t')). by apply in_map.
Qed.

Lemma unknown_tool req :
  truthy (params_name req) = true ->
  (forall n, In n tool_names -> params_name req <> JStr n) ->
  handler osascript req
  = ([], Normal (failure (lit "Unknown tool: " ++ ToString (params_name req)))).
Proof.
  intros Hname Hnot. rewrite handler_truthy by done.
  by rewrite (switch_case_None _ Hnot).
Qed.

End UnknownTool.

(** ** Escaping *)

Section Escaping.

Lemma slice_quoted x : slice (quoted x) 1 (-1) = x.
Proof.
  unfold slice, quoted. cbn [length]. rewrite length_app. cbn [length].
  set (n := length x).
  replace (Z.of_nat (S (n + 1))) with (Z.of_nat n + 2)%Z by lia.
  change (1 <? 0)%Z with false. change (-1 <? 0)%Z with true. cbv iota.
  replace (Z.min 1 (Z.of_nat n + 2)) with 1%Z by lia.
  replace (Z.max (Z.of_nat n + 2 + -1) 0) with (Z.of_nat n + 1)%Z by lia.
  destruct (Z.leb_spec (Z.of_nat n + 1) 1) as [Hle|Hlt].
  - assert (n = 0%nat) as Hn by lia. subst n. by destruct x.
  - replace (Z.to_nat (Z.of_nat n + 1 - 1)) with n by lia.
    change (Z.to_nat 1) with 1%nat. cbn [drop]. subst n.
    rewrite drop_0. apply take_app_length.
Qed.

(** On a string the function is the loop of [QuoteJSONString]. *)
Lemma escapeAppleScriptString_string s :
  escapeAppleScriptString (JStr s) = quote_code_points s.
Proof. unfold escapeAppleScriptString, QuoteJSONString. apply slice_quoted. Qed.

Lemma escapeAppleScriptString_other v :
  typeof v <> TyString -> escapeAppleScriptString v = [].
Proof. by destruct v. Qed.

Lemma uri_char_range c :
  uri_char c = true -> (48 <= c <= 58 \/ 65 <= c <= 90 \/ 97 <= c <= 122)%N.
Proof.
  unfold uri_char, is_alnum, colon.
  rewrite !orb_true_iff, !andb_true_iff, !N.leb_le, N.eqb_eq. lia.
Qed.

Lemma quote_code_point_uri_char c : uri_char c = true -> quote_code_point c = [c].
Proof.
  intros H. apply uri_char_range in H. unfold quote_code_point, dq, backslash.
  repeat match goal with
         | |- context [N.eqb c ?k] => destruct (N.eqb_spec c k); [lia|]
         end.
  destruct (N.ltb_spec c 32); [lia|done].
Qed.

Lemma uri_char_not_surrogate c :
  uri_char c = true -> is_leading_surrogate c = false /\ is_trailing_surrogate c = false.
Proof.
  intros H. apply uri_char_range in H.
  unfold is_leading_surrogate, is_trailing_surrogate.
  rewrite !andb_false_iff, !N.leb_gt. lia.
Qed.

(** Nothing in a string of URI characters needs escaping. *)
Lemma quote_code_points_uri_chars s :
  Forall (fun c => uri_char c = true) s -> quote_code_points s = s.
Proof.
  induction 1 as [|c s Hc _ IH]; [done|]. cbn [quote_code_points].
  destruct (uri_char_not_surrogate c Hc) as [-> ->].
  by rewrite quote_code_point_uri_char, IH.
Qed.

Lemma alnum_uri_char c : is_alnum c = true -> uri_char c = true.
Proof. unfold uri_char. by intros ->. Qed.

Lemma uri_type_chars ty : uri_type ty -> Forall (fun c => uri_char c = true) ty.
Proof.
  unfold uri_type. intros H.
  repeat (destruct H as [->|H]; [by repeat constructor|]).
  subst ty. by repeat constructor.
Qed.

Lemma segment_chars seg : segment seg -> Forall (fun c => uri_char c = true) seg.
Proof. intros [_ H]. eapply Forall_impl; [done|]. apply alnum_uri_char. Qed.

(** A URI of the grammar holds letters, digits and colons only. *)
Lemma spotify_uri_chars s : spotify_uri s -> Forall (fun c => uri_char c = true) s.
Proof.
  intros (ty & seg & segs & Hty & Hseg & Hsegs & ->).
  repeat apply Forall_app_2.
  - by repeat constructor.
  - by apply uri_type_chars.
  - by repeat constructor.
  - by apply segment_chars.
  - induction Hsegs as [|x segs Hx _ IH]; simpl; [constructor|].
    constructor; [done|]. apply Forall_app_2; [by apply segment_chars|done].
Qed.

Lemma valid_uri_chars s :
  isValidSpotifyUri (JStr s) = true -> Forall (fun c => uri_char c = true) s.
Proof. intros H. by apply spotify_uri_chars, spotifyUriPattern_grammar. Qed.

(** Escaping leaves a valid URI as it is. *)
Lemma escape_valid_uri s :
  isValidSpotifyUri (JStr s) = true -> escapeAppleScriptString (JStr s) = s.
Proof.
  intros H. rewrite escapeAppleScriptString_string.
  by apply quote_code_points_uri_chars, valid_uri_chars.
Qed.

Lemma valid_uri_string v :
  isValidSpotifyUri v = true -> exists s, v = JStr s /\ s <> [].
Proof.
  destruct v as [| | | |s|]; try done. intros H. exists s. split; [done|].
  by intros ->.
Qed.

End Escaping.

(** ** Scripts as the interpreter reads them *)

Section Scanning.

(** Text without a double quote stays outside literals. *)
Lemma scan_code pre : forall s text,
  Forall (fun c => c <> dq) pre ->
  scan (pre ++ s) (InCode text) = scan s (InCode (text ++ pre)).
Proof.
  induction pre as [|c pre IH]; intros s text H.
  - by rewrite app_nil_r.
  - apply Forall_cons in H as [Hc Hpre]. cbn [app scan].
    destruct (N.eqb_spec c dq) as [|_]; [done|].
    rewrite IH by done. by rewrite <- app_assoc.
Qed.

(** Inside a literal, text without quote and backslash is taken as it is. *)
Lemma scan_plain u : forall s contents,
  Forall (fun c => c <> dq /\ c <> backslash) u ->
  scan (u ++ s) (InLiteral contents) = scan s (InLiteral (contents ++ u)).
Proof.
  induction u as [|c u IH]; intros s contents H.
  - by rewrite app_nil_r.
  - apply Forall_cons in H as [[Hq Hb] Hu]. cbn [app scan].
    destruct (N.eqb_spec c dq) as [|_]; [done|].
    destruct (N.eqb_spec c backslash) as [|_]; [done|].
    rewrite IH by done. by rewrite <- app_assoc.
Qed.

(** A stretch of quote-free text followed by a quoted plain string is one
    piece of code and one literal, and scanning goes on behind it. *)
Lemma scan_code_literal pre u rest :
  Forall (fun c => c <> dq) pre ->
  Forall (fun c => c <> dq /\ c <> backslash) u ->
  scan (pre ++ quoted u ++ rest) (InCode []) =
  (fun ts => code pre ++ Literal u :: ts) <$> scan rest (InCode []).
Proof.
  intros Hpre Hu. rewrite scan_code by done. unfold quoted.
  cbn [app scan]. change (dq =? dq) with true. cbv iota.
  rewrite <- app_assoc, scan_plain by done. cbn [app scan].
  change (dq =? dq) with true. cbv iota.
  by destruct (scan rest (InCode [])).
Qed.

Lemma scan_code_literal_end pre u :
  Forall (fun c => c <> dq) pre ->
  Forall (fun c => c <> dq /\ c <> backslash) u ->
  scan (pre ++ quoted u) (InCode []) = Some (code pre ++ [Literal u]).
Proof.
  intros Hpre Hu. rewrite <- (app_nil_r (quoted u)).
  by rewrite scan_code_literal.
Qed.

Lemma uri_char_plain c : uri_char c = true -> c <> dq /\ c <> backslash.
Proof. intros H. apply uri_char_range in H. unfold dq, backslash. lia. Qed.

Lemma valid_uri_plain s :
  isValidSpotifyUri (JStr s) = true -> Forall (fun c => c <> dq /\ c <> backslash) s.
Proof.
  intros H. eapply Forall_impl; [by apply valid_uri_chars|]. apply uri_char_plain.
Qed.

End Scanning.

(** ** [spotify_play_track] *)

Section PlayTrack.

Variable osascript : executor.

Lemma play_track_run args :
  handler osascript (call "spotify_play_track" args) =
  conclude (run_tool osascript spotify_play_track args).
Proof. by rewrite handler_truthy. Qed.

Lemma play_track_invalid_uri args :
  isValidSpotifyUri (get args "uri") = false ->
  handler osascript (call "spotify_play_track" args)
  = ([], Normal (failure (lit "Invalid Spotify URI format"))).
Proof. intros H. rewrite play_track_run. cbn [run_tool]. by rewrite H. Qed.

Lemma play_track_invalid_context args :
  isValidSpotifyUri (get args "uri") = true ->
  truthy (get args "context") = true ->
  isValidSpotifyUri (get args "context") = false ->
  handler osascript (call "spotify_play_track" args)
  = ([], Normal (failure (lit "Invalid Spotify context URI format"))).
Proof.
  intros Hu Ht Hc. rewrite play_track_run. cbn [run_tool]. by rewrite Hu, Ht, Hc.
Qed.

Lemma play_track_accepted args :
  isValidSpotifyUri (get args "uri") = true ->
  truthy (get args "context") = false \/ isValidSpotifyUri (get args "context") = true ->
  handler osascript (call "spotify_play_track" args)
  = conclude (executeAppleScript osascript
                (playScript (get args "uri") (get args "context"))).
Proof.
  intros Hu Hc. rewrite play_track_run. cbn [run_tool]. rewrite Hu.
  destruct Hc as [-> | ->]; [done|]. by rewrite andb_false_r.
Qed.

(** With no context, or a falsy one, the script names the track only. *)
Lemma playScript_without_context u context :
  isValidSpotifyUri (JStr u) = true -> truthy context = false ->
  playScript (JStr u) context = tell_spotify (lit "play track " ++ quoted u).
Proof.
  intros Hu Hc. unfold playScript. rewrite Hc. cbn [truthy]. cbv iota.
  by rewrite escape_valid_uri.
Qed.

Lemma playScript_with_context u c :
  isValidSpotifyUri (JStr u) = true -> isValidSpotifyUri (JStr c) = true ->
  playScript (JStr u) (JStr c) =
  tell_spotify (lit "play track " ++ quoted u ++ lit " in context " ++ quoted c).
Proof.
  intros Hu Hc. unfold playScript. rewrite !escape_valid_uri by done.
  destruct (valid_uri_string _ Hc) as (c' & E & Hne). simplify_eq.
  by destruct c'.
Qed.

(** What the interpreter reads when the script names the track only ... *)
Lemma tokens_without_context u :
  isValidSpotifyUri (JStr u) = true ->
  tokens (tell_spotify (lit "play track " ++ quoted u)) =
  Some [Code (lit "tell application "); Literal (lit "Spotify");
        Code (lit " to play track "); Literal u].
Proof.
  intros Hu. unfold tokens.
  change (tell_spotify (lit "play track " ++ quoted u))
    with (lit "tell application " ++ quoted (lit "Spotify")
            ++ lit " to play track " ++ quoted u).
  rewrite scan_code_literal, scan_code_literal_end;
    first [by apply valid_uri_plain | by (vm_compute; repeat constructor)].
Qed.

(** ... and when it names a context as well. *)
Lemma tokens_with_context u c :
  isValidSpotifyUri (JStr u) = true -> isValidSpotifyUri (JStr c) = true ->
  tokens (tell_spotify (lit "play track " ++ quoted u
                          ++ lit " in context " ++ quoted c)) =
  Some [Code (lit "tell application "); Literal (lit "Spotify");
        Code (lit " to play track "); Literal u;
        Code (lit " in context "); Literal c].
Proof.
  intros Hu Hc. unfold tokens.
  change (tell_spotify (lit "play track " ++ quoted u
                          ++ lit " in context " ++ quoted c))
    with (lit "tell application " ++ quoted (lit "Spotify")
            ++ lit " to play track " ++ quoted u
            ++ lit " in context " ++ quoted c).
  rewrite !scan_code_literal, scan_code_literal_end;
    first [by apply valid_uri_plain | by (vm_compute; repeat constructor)].
Qed.

End PlayTrack.

(** ** Reading an escaped string back *)

Section ReadingBack.

Lemma surrogate_plain c :
  is_leading_surrogate c = true \/ is_trailing_surrogate c = true ->
  (c =? dq) = false /\ (c =? backslash) = false.
Proof.
  unfold is_leading_surrogate, is_trailing_surrogate, dq, backslash.
  rewrite !andb_true_iff, !N.leb_le, !N.eqb_neq. lia.
Qed.

(** How the scanner gets through the escape of one code point that is
    not a surrogate. *)
Lemma scan_quote_code_point c rest contents :
  scan (quote_code_point c ++ rest) (InLiteral contents) =
  if reads_back c then scan rest (InLiteral (contents ++ [c])) else None.
Proof.
  unfold quote_code_point, reads_back.
  destruct (N.eqb_spec c 8) as [->|H8]; [done|].
  destruct (N.eqb_spec c 9) as [->|H9]; [done|].
  destruct (N.eqb_spec c 10) as [->|H10]; [done|].
  destruct (N.eqb_spec c 12) as [->|H12]; [done|].
  destruct (N.eqb_spec c 13) as [->|H13]; [done|].
  destruct (N.eqb_spec c dq) as [->|Hq]; [done|].
  destruct (N.eqb_spec c backslash) as [->|Hb]; [done|].
  destruct (N.ltb_spec c 32) as [Hlt|Hge].
  - replace (32 <=? c) with false by (symmetry; apply N.leb_gt; lia). done.
  - replace (32 <=? c) with true by (symmetry; apply N.leb_le; lia).
    cbn [orb app scan].
    destruct (N.eqb_spec c dq); [done|]. by destruct (N.eqb_spec c backslash).
Qed.

Lemma scan_UnicodeEscape c rest contents :
  scan (UnicodeEscape c ++ rest) (InLiteral contents) = None.
Proof. reflexivity. Qed.

(** A representable string is read back as it was. *)
Lemma scan_representable s :
  representable s -> forall rest contents,
  scan (quote_code_points s ++ rest) (InLiteral contents)
  = scan rest (InLiteral (contents ++ s)).
Proof.
  induction 1 as [|c t Hl Ht Hc _ IH|hi lo t Hhi Hlo _ IH]; intros rest contents.
  - by rewrite app_nil_r.
  - cbn [quote_code_points]. rewrite Hl, Ht, <- app_assoc.
    rewrite scan_quote_code_point, Hc, IH. by rewrite <- app_assoc.
  - cbn [quote_code_points]. rewrite Hhi, Hlo. cbn [app scan].
    destruct (surrogate_plain hi (or_introl Hhi)) as [-> ->].
    destruct (surrogate_plain lo (or_intror Hlo)) as [-> ->].
    rewrite IH. by rewrite <- !app_assoc.
Qed.

(** Any other string makes the scanner give up. *)
Lemma scan_readable n : forall s rest contents ts,
  (length s <= n)%nat ->
  scan (quote_code_points s ++ rest) (InLiteral contents) = Some ts ->
  representable s.
Proof.
  induction n as [|n IH]; intros s rest contents ts Hlen Hscan.
  - destruct s; [constructor|simpl in Hlen; lia].
  - destruct s as [|c t]; [constructor|]. cbn [length] in Hlen.
    cbn [quote_code_points] in Hscan.
    destruct (is_leading_surrogate c) eqn:Hl.
    + destruct t as [|d t'].
      * by rewrite scan_UnicodeEscape in Hscan.
      * destruct (is_trailing_surrogate d) eqn:Hd.
        -- cbn [app scan] in Hscan.
           destruct (surrogate_plain c (or_introl Hl)) as [Ec1 Ec2].
           destruct (surrogate_plain d (or_intror Hd)) as [Ed1 Ed2].
           rewrite Ec1, Ec2, Ed1, Ed2 in Hscan.
           apply rep_pair; [done..|].
           eapply IH; [cbn [length] in Hlen; lia|exact Hscan].
        -- by rewrite <- app_assoc, scan_UnicodeEscape in Hscan.
    + destruct (is_trailing_surrogate c) eqn:Ht.
      * by rewrite <- app_assoc, scan_UnicodeEscape in Hscan.
      * rewrite <- app_assoc, scan_quote_code_point in Hscan.
        destruct (reads_back c) eqn:Hc; [|done].
        apply rep_unit; [done..|]. eapply IH; [lia|exact Hscan].
Qed.

(** The strings that come back from between the quotes are the
    representable ones. *)
Lemma parse_literal_escape s :
  parse_literal (quoted (escapeAppleScriptString (JStr s))) = Some s
  <-> representable s.
Proof.
  rewrite escapeAppleScriptString_string. unfold parse_literal, tokens, quoted.
  cbn [scan]. change (dq =? dq) with true. cbv iota. split.
  - intros H.
    destruct (scan (quote_code_points s ++ [dq]) (InLiteral [])) as [ts|] eqn:E;
      [|done].
    by apply (scan_readable (length s) s [dq] [] ts).
  - intros H. by rewrite scan_representable.
Qed.

(** Whatever the string, its escaped form between quotes is read as one
    literal holding the string, or not read at all: it never ends the
    literal early. *)
Lemma escape_stays_in_literal s ts :
  tokens (quoted (escapeAppleScriptString (JStr s))) = Some ts ->
  ts = [Literal s].
Proof.
  rewrite escapeAppleScriptString_string. unfold tokens, quoted.
  cbn [scan]. change (dq =? dq) with true. cbv iota. intros H.
  destruct (scan (quote_code_points s ++ [dq]) (InLiteral [])) as [ts'|] eqn:E;
    [|done].
  pose proof (scan_readable (length s) s [dq] [] ts' (le_n _) E) as Hrep.
  rewrite scan_representable in E by done. by simplify_eq/=.
Qed.

(** The two replacements of version 0.0.1 amount to one pass. *)
Lemma replace_all_twice s :
  Version001.replace_all dq [backslash; dq]
    (Version001.replace_all backslash [backslash; backslash] s)
  = flat_map (fun x => if x =? backslash then [backslash; backslash]
                       else if x =? dq then [backslash; dq] else [x]) s.
Proof.
  unfold Version001.replace_all. induction s as [|c s IH]; [done|].
  cbn [flat_map]. rewrite flat_map_app, IH. f_equal.
  destruct (N.eqb_spec c backslash) as [->|Hb]; [done|].
  cbn [flat_map]. by rewrite app_nil_r.
Qed.

(** The escaping of version 0.0.1 is read back whatever the string. *)
Lemma scan_Version001 s : forall rest contents,
  scan (Version001.replace_all dq [backslash; dq]
          (Version001.replace_all backslash [backslash; backslash] s) ++ rest)
       (InLiteral contents)
  = scan rest (InLiteral (contents ++ s)).
Proof.
  rewrite replace_all_twice.
  induction s as [|c s IH]; intros rest contents.
  - by rewrite app_nil_r.
  - cbn [flat_map]. rewrite <- app_assoc.
    destruct (N.eqb_spec c backslash) as [->|Hb];
      [|destruct (N.eqb_spec c dq) as [->|Hq]].
    + change (scan rest (InLiteral (contents ++ backslash :: s)))
        with (scan rest (InLiteral (contents ++ [backslash] ++ s))).
      rewrite (app_assoc contents), <- IH. reflexivity.
    + change (scan rest (InLiteral (contents ++ dq :: s)))
        with (scan rest (InLiteral (contents ++ [dq] ++ s))).
      rewrite (app_assoc contents), <- IH. reflexivity.
    + cbn [app scan].
      destruct (N.eqb_spec c dq) as [|_]; [done|].
      destruct (N.eqb_spec c backslash) as [|_]; [done|].
      rewrite IH. by rewrite <- app_assoc.
Qed.

Lemma parse_literal_Version001 s :
  parse_literal (quoted (Version001.escapeAppleScriptString (JStr s))) = Some s.
Proof.
  unfold parse_literal, tokens, quoted, Version001.escapeAppleScriptString.
  cbn [scan]. change (dq =? dq) with true. cbv iota.
  by rewrite scan_Version001.
Qed.

(** In particular a valid URI is one. *)
Lemma uri_chars_representable s :
  Forall (fun c => uri_char c = true) s -> representable s.
Proof.
  induction 1 as [|c s Hc _ IH]; [constructor|].
  destruct (uri_char_not_surrogate c Hc). apply rep_unit; try done.
  apply uri_char_range in Hc. unfold reads_back.
  replace (32 <=? c) with true by (symmetry; apply N.leb_le; lia). done.
Qed.

End ReadingBack.

(** ** Worked examples *)

Section Examples.

Example QuoteJSONString_mixed :
  QuoteJSONString (lit "a" ++ [dq; backslash; 10; 1])
  = quoted (lit "a" ++ [backslash; dq; backslash; backslash]
              ++ [backslash] ++ lit "n" ++ [backslash] ++ lit "u0001").
Proof. reflexivity. Qed.

Example trim_line : trim (lit "  playing " ++ nl) = lit "playing".
Proof. reflexivity. Qed.

Example StringToNumber_hex : StringToNumber (lit " 0x1F ") = Finite 31.
Proof. vm_compute. reflexivity. Qed.

Example StringToNumber_rounds :
  StringToNumber (lit "0.99999999999999999999") = Finite 1.
Proof. vm_compute. reflexivity. Qed.

Example StringToNumber_unit : StringToNumber (lit "50px") = NaN.
Proof. vm_compute. reflexivity. Qed.

Example Number_toString_tenth : Number_toString (binary64 0.1) = lit "0.1".
Proof. vm_compute. reflexivity. Qed.

Example Number_toString_large : Number_toString (binary64 1e21) = lit "1e+21".
Proof. vm_compute. reflexivity. Qed.

Example set_position_zero :
  executor_calls
    (trace (handler quiet_player
              (call "spotify_set_position" {[ "position" := JNum (Finite 0) ]})))
  = [tell_spotify (lit "set player position to 0")].
Proof. vm_compute. reflexivity. Qed.

Example set_position_negative :
  handler quiet_player
    (call "spotify_set_position" {[ "position" := JNum (binary64 (-0.0001)) ]})
  = ([], Normal (failure (lit "position must be between 0 and Infinity"))).
Proof. vm_compute. reflexivity. Qed.

Example set_shuffle_twice :
  let run := handler quiet_player
               (call "spotify_set_shuffle" {[ "enabled" := JBool true ]}) in
  run = ([ExecFile (lit "osascript")
                   [lit "-e"; tell_spotify (lit "set shuffling to true")]
                   30000 1048576],
         Normal (success (lit "ok"))).
Proof. vm_compute. reflexivity. Qed.

End Examples.

(** * The properties of the specification *)

(** ** Input safety *)

(** C1: whenever [spotify_play_track] accepts its arguments (the URI
    passes the validator, and the context is falsy or passes it too), the
    one script handed to the executor is read by the interpreter as the
    fixed text of the template with two or three literals in it: the
    application name, the caller's URI and, if given, the caller's
    context, each decoded to exactly the caller's text.  The caller's
    text therefore closes no literal and reaches no code position. *)
Theorem play_track_injection_free (osascript : executor) (args : gmap string jsval) :
  isValidSpotifyUri (get args "uri") = true ->
  truthy (get args "context") = false
  \/ isValidSpotifyUri (get args "context") = true ->
  let script := playScript (get args "uri") (get args "context") in
  executor_calls (trace (handler osascript (call "spotify_play_track" args)))
  = [script] /\
  exists u,
    get args "uri" = JStr u /\
    tokens script =
    Some ([Code (lit "tell application "); Literal (lit "Spotify");
           Code (lit " to play track "); Literal u]
          ++ match get args "context" with
             | JStr ((_ :: _) as c) => [Code (lit " in context "); Literal c]
             | _ => []
             end).
Proof.
  intros Hu Hc script. subst script. split.
  - rewrite play_track_accepted, conclude_trace by done.
    apply executeAppleScript_calls.
  - destruct (valid_uri_string _ Hu) as (u & Eu & _).
    exists u. split; [done|].
    rewrite Eu in *. destruct (truthy (get args "context")) eqn:Ht.
    + destruct Hc as [?|Hc]; [done|].
      destruct (valid_uri_string _ Hc) as (c & Ec & Hne). rewrite Ec in *.
      rewrite playScript_with_context, tokens_with_context by done.
      by destruct c.
    + rewrite playScript_without_context, tokens_without_context by done.
      by destruct (get args "context") as [| | | |[|]|].
Qed.

Lemma play_track_injection_free_witness :
  let args : gmap string jsval :=
    {[ "uri" := JStr (lit "spotify:track:4uLU6hMCjMI75M1A2tKUQC");
       "context" := JStr (lit "spotify:album:1A2b3C") ]} in
  let script := playScript (get args "uri") (get args "context") in
  isValidSpotifyUri (get args "uri") = true /\
  isValidSpotifyUri (get args "context") = true /\
  executor_calls (trace (handler quiet_player (call "spotify_play_track" args)))
  = [script] /\
  exists u,
    get args "uri" = JStr u /\
    tokens script =
    Some ([Code (lit "tell application "); Literal (lit "Spotify");
           Code (lit " to play track "); Literal u]
          ++ match get args "context" with
             | JStr ((_ :: _) as c) => [Code (lit " in context "); Literal c]
             | _ => []
             end).
Proof.
  split; [vm_compute; reflexivity|]. split; [vm_compute; reflexivity|].
  apply (play_track_injection_free quiet_player);
    [vm_compute; reflexivity | right; vm_compute; reflexivity].
Defined.

(** C2, as the specification words it, fails: the round trip through
    escaping does not hold for every string.  The backspace character
    (like every other control character but tab, linefeed and return) is
    written as backslash-b, the JSON escape, which is not an escape of
    AppleScript, so the text between the quotes is not a literal of the
    target language. *)
Theorem escape_backspace_not_read_back :
  escapeAppleScriptString (JStr [8]) = [backslash; 98] /\
  tokens (quoted (escapeAppleScriptString (JStr [8]))) = None /\
  parse_literal (quoted (escapeAppleScriptString (JStr [8]))) <> Some [8].
Proof. split; [reflexivity|]. split; [reflexivity|discriminate]. Qed.

(** C2, as the code has it: for every string without a control character
    other than tab, linefeed and return and without a surrogate outside
    a pair, [escapeAppleScriptString] between double quotes is a literal
    of the target language that decodes to exactly the string; and every
    URI that the validator accepts, which is all the program ever hands
    to the function, is such a string. *)
Theorem escape_round_trip_where_readable (s : jsstring) :
  (representable s ->
   parse_literal (quoted (escapeAppleScriptString (JStr s))) = Some s) /\
  (isValidSpotifyUri (JStr s) = true ->
   representable s /\
   parse_literal (quoted (escapeAppleScriptString (JStr s))) = Some s).
Proof.
  assert (Hread : representable s ->
                  parse_literal (quoted (escapeAppleScriptString (JStr s))) = Some s).
  { intros Hrep. rewrite escapeAppleScriptString_string.
    unfold parse_literal, tokens, quoted. cbn [scan].
    change (dq =? dq) with true. cbv iota. by rewrite scan_representable. }
  split; [done|]. intros Hvalid.
  assert (representable s) by (by apply uri_chars_representable, valid_uri_chars).
  auto.
Qed.

Lemma escape_round_trip_where_readable_witness :
  let s := lit "a" ++ [dq; backslash; 9; 10; 13] ++ lit "z" in
  let uri := lit "spotify:track:4uLU6hMCjMI75M1A2tKUQC" in
  parse_literal (quoted (escapeAppleScriptString (JStr s))) = Some s /\
  isValidSpotifyUri (JStr uri) = true /\
  parse_literal (quoted (escapeAppleScriptString (JStr uri))) = Some uri.
Proof.
  split; [|split; [vm_compute; reflexivity|]].
  - apply (proj1 (escape_round_trip_where_readable
                    (lit "a" ++ [dq; backslash; 9; 10; 13] ++ lit "z"))).
    repeat (apply rep_unit; [reflexivity..|]). apply rep_nil.
  - apply (proj2 (escape_round_trip_where_readable
                    (lit "spotify:track:4uLU6hMCjMI75M1A2tKUQC"))).
    vm_compute; reflexivity.
Defined.

(** ** The validators *)

(** C3: [isValidSpotifyUri] accepts exactly the strings of the grammar
    [spotify:<type>:<segment>(:<segment>)*]; it rejects what is not a
    string and the three malformed examples; and a rejected [uri] makes
    [spotify_play_track] answer with the invalid-URI error without a call
    to the executor. *)
Theorem isValidSpotifyUri_is_grammar :
  (forall v, isValidSpotifyUri v = true <-> exists s, v = JStr s /\ spotify_uri s) /\
  (forall v, typeof v <> TyString -> isValidSpotifyUri v = false) /\
  isValidSpotifyUri (JStr (lit "not-a-uri")) = false /\
  isValidSpotifyUri (JStr (lit "spotify:track:")) = false /\
  isValidSpotifyUri (JStr (lit "spotify:track:has space")) = false /\
  (forall (osascript : executor) (args : gmap string jsval),
      isValidSpotifyUri (get args "uri") = false ->
      let run := handler osascript (call "spotify_play_track" args) in
      executor_calls (trace run) = [] /\
      outcome run =
      Normal {| content := [ {| type := lit "text";
                                text := lit "Error: Invalid Spotify URI format" |} ];
                isError := Some true |}).
Proof.
  split_and!; try reflexivity.
  - intros v. split.
    + intros H. destruct v as [| | | |s|]; try done.
      exists s. split; [done|]. by apply spotifyUriPattern_grammar.
    + intros (s & -> & H). by apply spotifyUriPattern_grammar.
  - intros v H. by destruct v.
  - intros osascript args H run. subst run.
    by rewrite play_track_invalid_uri.
Qed.

Lemma isValidSpotifyUri_is_grammar_witness :
  let args : gmap string jsval := {[ "uri" := JStr (lit "spotify:track:has space") ]} in
  let run := handler quiet_player (call "spotify_play_track" args) in
  isValidSpotifyUri (get args "uri") = false /\
  executor_calls (trace run) = [] /\
  outcome run =
  Normal {| content := [ {| type := lit "text";
                            text := lit "Error: Invalid Spotify URI format" |} ];
            isError := Some true |}.
Proof.
  split; [vm_compute; reflexivity|].
  apply (proj2 (proj2 (proj2 (proj2 (proj2 isValidSpotifyUri_is_grammar))))).
  vm_compute; reflexivity.
Defined.

(** C4: an integer [volume] below 0 or above 100 makes
    [spotify_set_volume] answer with an error envelope that names the
    parameter and the range, and the executor is not called. *)
Theorem set_volume_out_of_range_rejected
    (osascript : executor) (args : gmap string jsval) (n : Z) :
  get args "volume" = JNum (of_Z n) ->
  (n < 0 \/ 100 < n)%Z ->
  let run := handler osascript (call "spotify_set_volume" args) in
  executor_calls (trace run) = [] /\
  outcome run =
  Normal {| content := [ {| type := lit "text";
                            text := lit "Error: volume must be between 0 and 100" |} ];
            isError := Some true |}.
Proof.
  intros Hv Hn run. subst run.
  rewrite (set_volume_out_of_range osascript args n); [done| |done].
  rewrite Hv. apply is_int_of_Z.
Qed.

Lemma set_volume_out_of_range_rejected_witness :
  let args : gmap string jsval := {[ "volume" := JNum (of_Z 101%Z) ]} in
  let run := handler quiet_player (call "spotify_set_volume" args) in
  (101 < 0 \/ 100 < 101)%Z /\
  executor_calls (trace run) = [] /\
  outcome run =
  Normal {| content := [ {| type := lit "text";
                            text := lit "Error: volume must be between 0 and 100" |} ];
            isError := Some true |}.
Proof.
  split; [right; reflexivity|].
  apply (set_volume_out_of_range_rejected quiet_player _ 101%Z);
    [vm_compute; reflexivity | right; reflexivity].
Defined.

(** C8: [validateBoolean] returns a value of type boolean unchanged and
    throws on every other value, the string [true] included; so
    [spotify_set_repeat] and [spotify_set_shuffle] answer a non-boolean
    [enabled] with an error envelope and without a call to the executor. *)
Theorem validateBoolean_strict :
  (forall value name, typeof value = TyBoolean -> validateBoolean value name = ret value) /\
  (forall value name, typeof value <> TyBoolean ->
      validateBoolean value name = throw (name ++ lit " must be a boolean")) /\
  typeof (JStr (lit "true")) <> TyBoolean /\
  (forall (osascript : executor) (tool_name : string) (args : gmap string jsval),
      tool_name = "spotify_set_repeat" \/ tool_name = "spotify_set_shuffle" ->
      typeof (get args "enabled") <> TyBoolean ->
      let run := handler osascript (call tool_name args) in
      executor_calls (trace run) = [] /\
      outcome run =
      Normal {| content := [ {| type := lit "text";
                                text := lit "Error: enabled must be a boolean" |} ];
                isError := Some true |}).
Proof.
  split_and!.
  - apply validateBoolean_boolean.
  - apply validateBoolean_other.
  - discriminate.
  - intros osascript tool_name args Htool Hty run. subst run.
    by rewrite boolean_tool_rejects.
Qed.

Lemma validateBoolean_strict_witness :
  let args : gmap string jsval := {[ "enabled" := JStr (lit "true") ]} in
  let run := handler quiet_player (call "spotify_set_shuffle" args) in
  typeof (get args "enabled") <> TyBoolean /\
  executor_calls (trace run) = [] /\
  outcome run =
  Normal {| content := [ {| type := lit "text";
                            text := lit "Error: enabled must be a boolean" |} ];
            isError := Some true |}.
Proof.
  split; [vm_compute; discriminate|].
  apply (proj2 (proj2 (proj2 validateBoolean_strict)) quiet_player);
    [by right | vm_compute; discriminate].
Defined.

(** C10: [spotify_set_volume] judges [Number(volume)], not [volume]: a
    value of any type whose coercion is an integer from 0 to 100 reaches
    the executor as that integer; every other value is answered with an
    error and no call.  So [null] counts as 0, the string [50] as 50 and
    [true] as 1, while [undefined], the string [abc] and 3.5 coerce to no
    integer. *)
Theorem set_volume_coerces_with_Number (osascript : executor) :
  (forall (args : gmap string jsval) (n : Z),
      is_int (ToNumber (get args "volume")) n -> (0 <= n <= 100)%Z ->
      executor_calls (trace (handler osascript (call "spotify_set_volume" args)))
      = [lit "tell application " ++ quoted (lit "Spotify")
           ++ lit " to set sound volume to " ++ decimal (Z.to_N n)]) /\
  (forall (args : gmap string jsval),
      (forall n, is_int (ToNumber (get args "volume")) n -> ~ (0 <= n <= 100)%Z) ->
      let run := handler osascript (call "spotify_set_volume" args) in
      executor_calls (trace run) = [] /\
      exists message, outcome run = Normal (failure message)) /\
  is_int (ToNumber JNull) 0%Z /\
  is_int (ToNumber (JStr (lit "50"))) 50%Z /\
  is_int (ToNumber (JBool true)) 1%Z /\
  (forall n, ~ is_int (ToNumber JUndefined) n) /\
  (forall n, ~ is_int (ToNumber (JStr (lit "abc"))) n) /\
  (forall n, ~ is_int (ToNumber (JNum (Finite 3.5%Q))) n).
Proof.
  split_and!.
  - intros args n Hint Hn. by rewrite (set_volume_accepts osascript args n).
  - intros args Hnot run. subst run.
    destruct (isInteger (ToNumber (get args "volume"))) eqn:E.
    + apply isInteger_is_int in E as [n Hint].
      rewrite (set_volume_out_of_range osascript args n); [eauto|done|].
      specialize (Hnot n Hint). lia.
    + rewrite set_volume_not_integer; [eauto|].
      intros n Hint. assert (isInteger (ToNumber (get args "volume")) = true);
        [apply isInteger_is_int; eauto | congruence].
  - reflexivity.
  - vm_compute. reflexivity.
  - reflexivity.
  - intros n [].
  - intros n H. vm_compute in H. done.
  - intros n H. cbn in H. unfold Qeq in H. simpl in H. lia.
Qed.

Lemma set_volume_coerces_with_Number_witness :
  let accepted : gmap string jsval := {[ "volume" := JStr (lit "50") ]} in
  let rejected : gmap string jsval := {[ "volume" := JStr (lit "abc") ]} in
  is_int (ToNumber (get accepted "volume")) 50%Z /\
  executor_calls (trace (handler quiet_player (call "spotify_set_volume" accepted)))
  = [lit "tell application " ++ quoted (lit "Spotify")
       ++ lit " to set sound volume to " ++ lit "50"] /\
  executor_calls (trace (handler quiet_player (call "spotify_set_volume" rejected)))
  = [].
Proof.
  split; [vm_compute; reflexivity|]. split.
  - apply (proj1 (set_volume_coerces_with_Number quiet_player) _ 50%Z);
      [vm_compute; reflexivity | lia].
  - apply (proj1 (proj2 (set_volume_coerces_with_Number quiet_player)) _).
    intros n H. vm_compute in H. destruct H.
Defined.

(** ** The dispatcher *)

(** C5, as the code has it: a request whose tool name is missing (absent,
    empty, or any other falsy value) is refused before the [try] block is
    entered: the handler throws [Tool name is required], returns no
    envelope, and neither calls the executor nor logs anything. *)
Theorem missing_tool_name_thrown (osascript : executor) (req : request) :
  truthy (params_name req) = false ->
  trace (handler osascript req) = [] /\
  outcome (handler osascript req) = Throw (lit "Tool name is required").
Proof. intros H. by rewrite handler_falsy. Qed.

Lemma missing_tool_name_thrown_witness :
  let req := {| params_name := JStr []; params_arguments := Some ∅ |} in
  truthy (params_name req) = false /\
  trace (handler quiet_player req) = [] /\
  outcome (handler quiet_player req) = Throw (lit "Tool name is required").
Proof.
  split; [reflexivity|].
  apply (missing_tool_name_thrown quiet_player); reflexivity.
Defined.

(** C5, as the specification words it, fails: for a request without a
    tool name the handler returns no envelope at all. *)
Lemma missing_tool_name_no_envelope :
  let req := {| params_name := JUndefined; params_arguments := None |} in
  outcome (handler quiet_player req) = Throw (lit "Tool name is required") /\
  ~ exists e : envelope, outcome (handler quiet_player req) = Normal e.
Proof. split; [reflexivity|]. intros [e H]. discriminate H. Qed.

(** C6: a tool name that is present and is none of the 16 names of the
    catalogue is answered with an error envelope whose text is
    [Error: Unknown tool: ] followed by the name, and the executor is not
    called. *)
Theorem unknown_tool_envelope (osascript : executor) (req : request) :
  truthy (params_name req) = true ->
  (forall n, In n tool_names -> params_name req <> JStr n) ->
  length tool_names = 16%nat /\
  executor_calls (trace (handler osascript req)) = [] /\
  outcome (handler osascript req) =
  Normal {| content := [ {| type := lit "text";
                            text := lit "Error: " ++ lit "Unknown tool: "
                                      ++ ToString (params_name req) |} ];
            isError := Some true |}.
Proof.
  intros Hname Hnot. split; [reflexivity|]. by rewrite unknown_tool.
Qed.

Lemma unknown_tool_envelope_witness :
  let req := call "spotify_frobnicate" ∅ in
  truthy (params_name req) = true /\
  executor_calls (trace (handler quiet_player req)) = [] /\
  outcome (handler quiet_player req) =
  Normal {| content := [ {| type := lit "text";
                            text := lit "Error: Unknown tool: spotify_frobnicate" |} ];
            isError := Some true |}.
Proof.
  split; [reflexivity|].
  apply (unknown_tool_envelope quiet_player (call "spotify_frobnicate" ∅)).
  - reflexivity.
  - intros n Hin E. vm_compute in Hin.
    repeat (destruct Hin as [<-|Hin]; [discriminate E|]). destruct Hin.
Defined.

(** C7: for [uri = spotify:track:4uLU6hMCjMI75M1A2tKUQC] and no context
    the script tells the application Spotify the command [play track]
    followed by the quoted URI; when the executor succeeds, the handler
    returns an envelope without [isError] whose text is the trimmed
    standard output. *)
Theorem play_track_literal_example
    (osascript : executor) (args : gmap string jsval) (stdout stderr : jsstring) :
  let uri := lit "spotify:track:4uLU6hMCjMI75M1A2tKUQC" in
  let command := lit "play track " ++ quoted uri in
  let script := lit "tell application " ++ quoted (lit "Spotify") ++ lit " to "
                  ++ command in
  get args "uri" = JStr uri ->
  get args "context" = JUndefined ->
  osascript script = Exited stdout stderr ->
  let run := handler osascript (call "spotify_play_track" args) in
  playScript (get args "uri") (get args "context") = script /\
  executor_calls (trace run) = [script] /\
  outcome run =
  Normal {| content := [ {| type := lit "text"; text := trim stdout |} ];
            isError := None |}.
Proof.
  intros uri command script Hu Hc Hexec run. subst run.
  assert (Hs : playScript (get args "uri") (get args "context") = script)
    by (rewrite Hu, Hc; reflexivity).
  rewrite play_track_accepted; [|rewrite Hu; reflexivity|left; by rewrite Hc].
  rewrite Hs, conclude_trace, conclude_outcome.
  rewrite executeAppleScript_calls, executeAppleScript_outcome, Hexec. done.
Qed.

Lemma play_track_literal_example_witness :
  let uri := lit "spotify:track:4uLU6hMCjMI75M1A2tKUQC" in
  let command := lit "play track " ++ quoted uri in
  let script := lit "tell application " ++ quoted (lit "Spotify") ++ lit " to "
                  ++ command in
  let args : gmap string jsval := {[ "uri" := JStr uri ]} in
  let run := handler quiet_player (call "spotify_play_track" args) in
  quiet_player script = Exited (lit "ok" ++ nl) [] /\
  playScript (get args "uri") (get args "context") = script /\
  executor_calls (trace run) = [script] /\
  outcome run =
  Normal {| content := [ {| type := lit "text"; text := lit "ok" |} ];
            isError := None |}.
Proof.
  split; [reflexivity|].
  apply (play_track_literal_example quiet_player _ (lit "ok" ++ nl) []);
    vm_compute; reflexivity.
Defined.

(** C9: with a valid [uri], an empty-string [context] passes: the script
    is the one without context.  The context check fails, with its own
    message and before any call to the executor, exactly when the context
    is truthy and not a valid URI. *)
Theorem empty_context_treated_as_absent
    (osascript : executor) (args : gmap string jsval) (u : jsstring) :
  get args "uri" = JStr u ->
  isValidSpotifyUri (JStr u) = true ->
  let run := handler osascript (call "spotify_play_track" args) in
  (get args "context" = JStr [] ->
   executor_calls (trace run)
   = [lit "tell application " ++ quoted (lit "Spotify") ++ lit " to "
        ++ lit "play track " ++ quoted u]) /\
  (executor_calls (trace run) = [] <->
   truthy (get args "context") = true
   /\ isValidSpotifyUri (get args "context") = false) /\
  (executor_calls (trace run) = [] ->
   outcome run = Normal (failure (lit "Invalid Spotify context URI format"))).
Proof.
  intros Hu Hvalid run. subst run.
  assert (Hacc : truthy (get args "context") = false
                 \/ isValidSpotifyUri (get args "context") = true ->
                 executor_calls (trace (handler osascript
                                          (call "spotify_play_track" args)))
                 = [playScript (JStr u) (get args "context")]).
  { intros Hc. rewrite play_track_accepted, conclude_trace by (by rewrite ?Hu).
    rewrite Hu. apply executeAppleScript_calls. }
  assert (Hrej : truthy (get args "context") = true
                 /\ isValidSpotifyUri (get args "context") = false ->
                 handler osascript (call "spotify_play_track" args)
                 = ([], Normal (failure (lit "Invalid Spotify context URI format")))).
  { intros [Ht Hc]. apply play_track_invalid_context; by rewrite ?Hu. }
  assert (Hcases : (truthy (get args "context") = false
                    \/ isValidSpotifyUri (get args "context") = true)
                   \/ (truthy (get args "context") = true
                       /\ isValidSpotifyUri (get args "context") = false)).
  { destruct (truthy (get args "context")),
             (isValidSpotifyUri (get args "context")); auto. }
  split_and!.
  - intros Hc. rewrite Hacc by (left; by rewrite Hc).
    rewrite playScript_without_context by (by rewrite ?Hc). done.
  - split.
    + intros Hcalls. destruct Hcases as [Hc|Hc]; [|done].
      rewrite (Hacc Hc) in Hcalls. discriminate Hcalls.
    + intros Hc. by rewrite (Hrej Hc).
  - intros Hcalls. destruct Hcases as [Hc|Hc]; [|by rewrite (Hrej Hc)].
    rewrite (Hacc Hc) in Hcalls. discriminate Hcalls.
Qed.

Lemma empty_context_treated_as_absent_witness :
  let u := lit "spotify:track:4uLU6hMCjMI75M1A2tKUQC" in
  let args : gmap string jsval := {[ "uri" := JStr u; "context" := JStr [] ]} in
  isValidSpotifyUri (JStr u) = true /\
  executor_calls (trace (handler quiet_player (call "spotify_play_track" args)))
  = [lit "tell application " ++ quoted (lit "Spotify") ++ lit " to "
       ++ lit "play track " ++ quoted u].
Proof.
  split; [vm_compute; reflexivity|].
  apply (empty_context_treated_as_absent quiet_player _
           (lit "spotify:track:4uLU6hMCjMI75M1A2tKUQC"));
    vm_compute; reflexivity.
Defined.

(** * Further properties of the code *)

(** ** Every request, every tool *)

Section EveryRequest.

(** What one run of the executor adapter leaves behind and returns. *)
Lemma executeAppleScript_run (osascript : executor) script :
  executeAppleScript osascript script =
  (ExecFile (lit "osascript") [lit "-e"; script] 30000 1048576
     :: match osascript script with
        | Exited _ stderr =>
            if truthy (JStr stderr)
            then [ConsoleError (lit "AppleScript stderr:") (LoggedText stderr)]
            else []
        | Failed message =>
            [ConsoleError (lit "Failed to execute AppleScript:")
                          (LoggedError message)]
        end,
   match osascript script with
   | Exited stdout _ => Normal (trim stdout)
   | Failed message => Throw message
   end).
Proof.
  unfold executeAppleScript. destruct (osascript script) as [out err|msg]; [|done].
  by destruct err.
Qed.

(** An arm of the [switch] either throws before it reaches the executor,
    or runs one script; which of the two, and which script, does not
    depend on the executor. *)
Lemma run_tool_cases t args :
  (exists message, forall osascript, run_tool osascript t args = throw message)
  \/ (exists script, forall osascript,
        run_tool osascript t args = executeAppleScript osascript script).
Proof.
  destruct t; cbn [run_tool]; try (right; eexists; intros; reflexivity).
  - destruct (isValidSpotifyUri (get args "uri")); cbn [negb];
      [|left; eexists; intros; reflexivity].
    destruct (truthy (get args "context") && negb (isValidSpotifyUri (get args "context")));
      [left|right]; eexists; intros; reflexivity.
  - unfold validateInteger. cbn [default].
    destruct (negb (isInteger (ToNumber (get args "volume"))));
      [left; eexists; intros; reflexivity|].
    destruct (lt _ _ || gt _ _); [left; eexists; intros; reflexivity|].
    right. eexists. intros. by rewrite bind_ret.
  - unfold validateNumber. cbn [default].
    destruct (negb (isFinite (ToNumber (get args "position"))));
      [left; eexists; intros; reflexivity|].
    destruct (lt _ _ || gt _ _); [left; eexists; intros; reflexivity|].
    right. eexists. intros. by rewrite bind_ret.
  - unfold validateBoolean.
    destruct (negb (jstype_eqb (typeof (get args "enabled")) TyBoolean));
      [left; eexists; intros; reflexivity|].
    right. eexists. intros. by rewrite bind_ret.
  - unfold validateBoolean.
    destruct (negb (jstype_eqb (typeof (get args "enabled")) TyBoolean));
      [left; eexists; intros; reflexivity|].
    right. eexists. intros. by rewrite bind_ret.
Qed.

(** The same for the whole handler, once a tool name is there. *)
Lemma handler_cases req :
  truthy (params_name req) = true ->
  (exists message, forall osascript,
      handler osascript req = ([], Normal (failure message)))
  \/ (exists script, forall osascript,
        handler osascript req = conclude (executeAppleScript osascript script)).
Proof.
  intros Hname. destruct (switch_case (params_name req)) as [t|] eqn:Et.
  - destruct (run_tool_cases t (default ∅ (params_arguments req)))
      as [[message H]|[script H]]; [left; exists message|right; exists script];
      intros osascript; by rewrite handler_truthy, Et, H.
  - left. eexists. intros osascript. by rewrite handler_truthy, Et.
Qed.

End EveryRequest.

(** With a tool name present the handler ends in one of three ways:
    without a call to the executor and with an error envelope; with one
    call that exited and the trimmed standard output as the text; or with
    one call that failed and the failure's message in an error envelope. *)
Theorem handler_three_ways (osascript : executor) (req : request) :
  truthy (params_name req) = true ->
  let run := handler osascript req in
  (executor_calls (trace run) = []
   /\ exists message, outcome run = Normal (failure message))
  \/ (exists script,
        executor_calls (trace run) = [script] /\
        outcome run = Normal match osascript script with
                             | Exited stdout _ => success (trim stdout)
                             | Failed message => failure message
                             end).
Proof.
  intros Hname run. subst run.
  destruct (handler_cases req Hname) as [[message H]|[script H]]; rewrite H.
  - left. eauto.
  - right. exists script. rewrite conclude_trace, conclude_outcome.
    rewrite executeAppleScript_calls, executeAppleScript_outcome.
    split; [done|]. by destruct (osascript script).
Qed.

Lemma handler_three_ways_witness :
  let req := call "spotify_get_volume" ∅ in
  let run := handler quiet_player req in
  truthy (params_name req) = true /\
  ((executor_calls (trace run) = []
    /\ exists message, outcome run = Normal (failure message))
   \/ (exists script,
         executor_calls (trace run) = [script] /\
         outcome run = Normal match quiet_player script with
                              | Exited stdout _ => success (trim stdout)
                              | Failed message => failure message
                              end)).
Proof.
  split; [reflexivity|].
  apply (handler_three_ways quiet_player (call "spotify_get_volume" ∅)).
  reflexivity.
Defined.

(** A success envelope is never made up: it is returned only after one
    call of the executor that exited, and its text is that call's
    trimmed standard output. *)
Theorem success_needs_executor (osascript : executor) (req : request) (e : envelope) :
  outcome (handler osascript req) = Normal e ->
  isError e = None ->
  exists script stdout stderr,
    executor_calls (trace (handler osascript req)) = [script] /\
    osascript script = Exited stdout stderr /\
    e = success (trim stdout).
Proof.
  intros Hout Herr. destruct (truthy (params_name req)) eqn:Hname.
  - destruct (handler_cases req Hname) as [[message H]|[script H]];
      rewrite H in *.
    + cbn in Hout. by simplify_eq.
    + rewrite conclude_outcome, executeAppleScript_outcome in Hout.
      rewrite conclude_trace, executeAppleScript_calls.
      destruct (osascript script) as [out err|m] eqn:E; simplify_eq; eauto 6.
  - rewrite handler_falsy in Hout by done. discriminate Hout.
Qed.

Lemma success_needs_executor_witness :
  let req := call "spotify_pause" ∅ in
  let e := success (lit "ok") in
  outcome (handler quiet_player req) = Normal e /\
  exists script stdout stderr,
    executor_calls (trace (handler quiet_player req)) = [script] /\
    quiet_player script = Exited stdout stderr /\
    e = success (trim stdout).
Proof.
  split; [reflexivity|].
  apply (success_needs_executor quiet_player (call "spotify_pause" ∅)); reflexivity.
Defined.

(** Whatever the request, the handler starts at most one process: the
    program [osascript] with the two arguments [-e] and the script, a
    timeout of 30000 ms and room for 1 MiB of output; and it writes at
    most one line to the console, after that call. *)
Theorem handler_one_process (osascript : executor) (req : request) :
  trace (handler osascript req) = []
  \/ exists script log,
       trace (handler osascript req)
       = ExecFile (lit "osascript") [lit "-e"; script] 30000 (1024 * 1024) :: log
       /\ (log = [] \/ exists label detail, log = [ConsoleError label detail]).
Proof.
  destruct (truthy (params_name req)) eqn:Hname.
  - destruct (handler_cases req Hname) as [[message H]|[script H]]; rewrite H.
    + by left.
    + right. rewrite conclude_trace, executeAppleScript_run. cbn [trace fst].
      eexists _, _. split; [reflexivity|].
      destruct (osascript script) as [out err|m]; [|eauto].
      destruct (truthy (JStr err)); eauto.
  - left. by rewrite handler_falsy.
Qed.

(** What a run that exits writes to its diagnostic stream never shows in
    the response: two executors that for every script both exit with the
    same standard output, whatever their diagnostics, or both fail with
    the same message, get the same outcome for every request.  (After a
    failure the response carries the failure's message as it is.) *)
Theorem exit_stderr_does_not_change_the_response
    (osascript osascript' : executor) (req : request) :
  (forall script, alike_but_exit_stderr (osascript script) (osascript' script)) ->
  outcome (handler osascript req) = outcome (handler osascript' req).
Proof.
  intros Hsame. destruct (truthy (params_name req)) eqn:Hname.
  - destruct (handler_cases req Hname) as [[message H]|[script H]]; rewrite !H.
    + done.
    + rewrite !conclude_outcome, !executeAppleScript_outcome.
      specialize (Hsame script).
      destruct (osascript script), (osascript' script); simpl in Hsame;
        by subst.
  - by rewrite !handler_falsy.
Qed.

Lemma exit_stderr_does_not_change_the_response_witness :
  let noisy : executor := fun _ => Exited (lit "ok" ++ nl) (lit "warning") in
  let req := call "spotify_next_track" ∅ in
  (forall script, alike_but_exit_stderr (quiet_player script) (noisy script)) /\
  outcome (handler quiet_player req) = outcome (handler noisy req).
Proof.
  split; [intros script; reflexivity|].
  apply (exit_stderr_does_not_change_the_response quiet_player
           (fun _ => Exited (lit "ok" ++ nl) (lit "warning"))).
  intros script. reflexivity.
Defined.

(** ** The catalogue and the [switch] *)

Section Catalogue.

Lemma handler_call (osascript : executor) n t args :
  switch_case (JStr (lit n)) = Some t ->
  handler osascript (call n args) = conclude (run_tool osascript t args).
Proof.
  intros Ht. rewrite handler_truthy.
  - cbn [call params_name params_arguments default]. by rewrite Ht.
  - cbn [call params_name truthy]. by destruct (lit n).
Qed.

End Catalogue.

(** The tools the catalogue advertises are the tools the [switch]
    handles: a name is in the catalogue exactly when some [case] takes
    it, and no name is advertised twice. *)
Theorem catalogue_is_dispatched :
  NoDup tool_names /\
  forall n, In n tool_names <-> exists t, switch_case (JStr n) = Some t.
Proof.
  split.
  - apply (bool_decide_unpack _). by vm_compute.
  - intros n. split.
    + intros Hin. unfold tool_names, tools in Hin. cbn [List.map name no_params] in Hin.
      cbn [In] in Hin.
      repeat (destruct Hin as [<-|Hin]; [eexists; reflexivity|]). done.
    + intros [t Ht]. apply switch_case_Some in Ht as (n' & Hin & E).
      by simplify_eq.
Qed.

(** A script builder reads no argument that the catalogue does not
    declare for its tool: two argument bags that agree on the declared
    properties give the same run, whatever else they hold. *)
Theorem handler_reads_declared_arguments
    (osascript : executor) (d : descriptor) (a b : gmap string jsval) :
  In d tools ->
  agree_on (List.map prop_name (properties d)) a b ->
  handler osascript (call (name d) a) = handler osascript (call (name d) b).
Proof.
  intros Hin Hag. unfold tools in Hin. cbn [In] in Hin.
  repeat (destruct Hin as [<-|Hin];
          [cbn [name no_params properties List.map prop_name] in *;
           erewrite !handler_call by reflexivity; cbn [snd run_tool];
           rewrite ?(Hag "uri"), ?(Hag "context"), ?(Hag "volume"),
             ?(Hag "position"), ?(Hag "enabled") by (cbn [In]; auto);
           reflexivity|]).
  done.
Qed.

Lemma handler_reads_declared_arguments_witness :
  let d := {| name := "spotify_get_volume"; description := "Get the current volume";
              properties := []; required := [];
              readOnlyHint := true; idempotentHint := None |} in
  let a : gmap string jsval := {[ "volume" := JStr (lit "100") ]} in
  In d tools /\
  handler quiet_player (call (name d) a) = handler quiet_player (call (name d) ∅).
Proof.
  split; [vm_compute; tauto|].
  apply (handler_reads_declared_arguments quiet_player).
  - vm_compute; tauto.
  - intros k [].
Defined.

(** An argument the catalogue marks as required and the request leaves
    out is always refused before the executor is reached. *)
Theorem missing_required_argument_refused
    (osascript : executor) (d : descriptor) (key : string)
    (args : gmap string jsval) :
  In d tools ->
  In key (required d) ->
  get args key = JUndefined ->
  exists message,
    handler osascript (call (name d) args) = ([], Normal (failure message)).
Proof.
  intros Hin Hkey Hget. unfold tools in Hin. cbn [In] in Hin.
  repeat (destruct Hin as [<-|Hin];
          [cbn [name no_params required In] in *;
           try (destruct Hkey as [<-|[]]; erewrite handler_call by reflexivity;
                cbn [snd run_tool]; rewrite Hget; eexists; vm_compute; reflexivity);
           try done|]).
  done.
Qed.

Lemma missing_required_argument_refused_witness :
  let d := {| name := "spotify_set_position";
              description := "Set the player position within the current track";
              properties :=
                [ {| prop_name := "position"; prop_type := "number";
                     prop_description := "Position in seconds";
                     minimum := Some 0%Z; maximum := None |} ];
              required := ["position"];
              readOnlyHint := false; idempotentHint := Some true |} in
  In d tools /\
  exists message,
    handler quiet_player (call (name d) ∅) = ([], Normal (failure message)).
Proof.
  split; [vm_compute; tauto|].
  apply (missing_required_argument_refused quiet_player _ "position").
  - vm_compute; tauto.
  - left; reflexivity.
  - reflexivity.
Defined.

(** ** Numbers in scripts *)

Section Numerals.

Lemma Forall_forallb {A} (f : A -> bool) l :
  forallb f l = true -> Forall (fun x => f x = true) l.
Proof.
  intros H. apply List.Forall_forall. intros x Hx.
  by apply (proj1 (forallb_forall f l) H).
Qed.

Lemma digits_fuel_digits fuel : forall n acc,
  Forall (fun c => is_digit c = true) acc ->
  Forall (fun c => is_digit c = true) (digits_fuel fuel n acc).
Proof.
  induction fuel as [|fuel IH]; intros n acc Hacc; [done|]. cbn [digits_fuel].
  assert (Hd : is_digit (48 + n mod 10) = true).
  { unfold is_digit. assert (n mod 10 < 10) by (apply N.mod_upper_bound; lia).
    rewrite andb_true_iff, !N.leb_le. revert H. generalize (n mod 10). lia. }
  destruct (n / 10 =? 0); [by constructor|]. apply IH. by constructor.
Qed.

Lemma decimal_digits n : Forall (fun c => is_digit c = true) (decimal n).
Proof. apply digits_fuel_digits. constructor. Qed.

Lemma digit_numeric c : is_digit c = true -> numeric_char c = true.
Proof. unfold numeric_char. by intros ->. Qed.

Lemma zeros_numeric n : Forall (fun c => numeric_char c = true) (zeros n).
Proof. unfold zeros. induction (Z.to_nat n); simpl; by constructor. Qed.

Lemma decimal_numeric n : Forall (fun c => numeric_char c = true) (decimal n).
Proof. eapply Forall_impl; [apply decimal_digits|]. apply digit_numeric. Qed.

Create HintDb numeral.
Local Hint Resolve zeros_numeric decimal_numeric : numeral.

Lemma positive_to_string_numeric x :
  Forall (fun c => numeric_char c = true) (positive_to_string x).
Proof.
  unfold positive_to_string.
  destruct (shortest_from 17 x (exponent10 x) 1) as [[n k] s].
  assert (Hds := decimal_numeric (Z.to_N s)).
  assert (Htake : forall i, Forall (fun c => numeric_char c = true)
                                   (take i (decimal (Z.to_N s))))
    by (intros i; by apply Forall_take).
  assert (Hdrop : forall i, Forall (fun c => numeric_char c = true)
                                   (drop i (decimal (Z.to_N s))))
    by (intros i; by apply Forall_drop).
  assert (Hlit : forall t, forallb numeric_char t = true ->
                           Forall (fun c => numeric_char c = true) t)
    by apply Forall_forallb.
  repeat match goal with
         | |- context [if ?b then _ else _] => destruct b
         end;
    repeat apply Forall_app_2; auto with numeral.
Qed.

(** A finite number is written with digits, point, exponent mark and
    signs only. *)
Lemma Number_toString_numeric a :
  isFinite a = true -> Forall (fun c => numeric_char c = true) (Number_toString a).
Proof.
  destruct a as [| |q]; try done. intros _. cbn [Number_toString].
  destruct (Qeq_bool (Qred q) 0); [by apply Forall_forallb|].
  destruct (Qltb (Qred q) 0); [|apply positive_to_string_numeric].
  apply Forall_app_2; [by apply Forall_forallb|apply positive_to_string_numeric].
Qed.

Lemma numeric_code_char c : numeric_char c = true -> code_char c = true.
Proof.
  unfold numeric_char, code_char, is_alnum, is_digit.
  rewrite !orb_true_iff, !andb_true_iff, !N.leb_le, !N.eqb_eq. lia.
Qed.

Lemma code_char_not_dq c : code_char c = true -> c <> dq.
Proof.
  unfold code_char, is_alnum, dq.
  rewrite !orb_true_iff, !andb_true_iff, !N.leb_le, !N.eqb_eq. lia.
Qed.

(** A command made of code characters only is read as one stretch of
    code after the application name. *)
Lemma tokens_tell_code command :
  Forall (fun c => code_char c = true) command ->
  tokens (tell_spotify command) =
  Some [Code (lit "tell application "); Literal (lit "Spotify");
        Code (lit " to " ++ command)].
Proof.
  intros H. unfold tokens, tell_spotify.
  rewrite scan_code_literal; [| by (vm_compute; repeat constructor)..].
  replace (lit " to " ++ command) with ((lit " to " ++ command) ++ []) at 1
    by apply app_nil_r.
  rewrite scan_code.
  - by destruct command.
  - apply Forall_app_2; [by (vm_compute; repeat constructor)|].
    eapply Forall_impl; [done|]. apply code_char_not_dq.
Qed.

End Numerals.

(** [spotify_set_position]: the position is judged after coercion with
    [Number]; a finite value from 0 upwards is written into the script
    as JavaScript prints it, a negative one is answered with the range,
    and NaN or an infinity with [must be a valid number], all three
    refusals without a call to the executor. *)
Theorem set_position_contract (osascript : executor) (args : gmap string jsval) :
  let num := ToNumber (get args "position") in
  let run := handler osascript (call "spotify_set_position" args) in
  (forall q, num = Finite q -> (0 <= q)%Q ->
     executor_calls (trace run)
     = [lit "tell application " ++ quoted (lit "Spotify")
          ++ lit " to set player position to " ++ Number_toString num]) /\
  (forall q, num = Finite q -> (q < 0)%Q ->
     run = ([], Normal (failure (lit "position must be between 0 and Infinity")))) /\
  (isFinite num = false ->
     run = ([], Normal (failure (lit "position must be a valid number")))).
Proof.
  intros num run. subst num run.
  rewrite (handler_call osascript "spotify_set_position" spotify_set_position)
    by reflexivity.
  cbn [run_tool]. unfold validateNumber. simpl default. split_and!.
  - intros q Hq Hpos. rewrite Hq. cbn [isFinite negb lt gt of_Z orb].
    unfold Qltb. apply Qle_bool_iff in Hpos. change (inject_Z 0) with 0%Q.
    rewrite Hpos. cbn [negb orb]. rewrite bind_ret, conclude_trace.
    apply executeAppleScript_calls.
  - intros q Hq Hneg. rewrite Hq. cbn [isFinite negb lt gt of_Z orb].
    unfold Qltb. change (inject_Z 0) with 0%Q.
    destruct (Qle_bool 0 q) eqn:E.
    + apply Qle_bool_iff in E. by apply Qle_not_lt in E.
    + reflexivity.
  - intros Hfin. rewrite Hfin. reflexivity.
Qed.

Lemma set_position_contract_witness :
  let args : gmap string jsval := {[ "position" := JStr (lit "1.5") ]} in
  let late : gmap string jsval := {[ "position" := JStr (lit "Infinity") ]} in
  ToNumber (get args "position") = Finite (3 # 2) /\
  Number_toString (ToNumber (get args "position")) = lit "1.5" /\
  executor_calls (trace (handler quiet_player (call "spotify_set_position" args)))
  = [lit "tell application " ++ quoted (lit "Spotify")
       ++ lit " to set player position to "
       ++ Number_toString (ToNumber (get args "position"))] /\
  handler quiet_player (call "spotify_set_position" late)
  = ([], Normal (failure (lit "position must be a valid number"))).
Proof.
  split; [vm_compute; reflexivity|]. split; [vm_compute; reflexivity|]. split.
  - apply (proj1 (set_position_contract quiet_player
                    {[ "position" := JStr (lit "1.5") ]}) (3 # 2));
      [vm_compute; reflexivity | discriminate].
  - apply (proj2 (proj2 (set_position_contract quiet_player
                           {[ "position" := JStr (lit "Infinity") ]}))).
    vm_compute; reflexivity.
Defined.

(** [validateInteger], whatever the bounds: it returns only the coerced
    value itself, only when that is an integer within the bounds, and
    for every such integer; without bounds it returns every integer. *)
Theorem validateInteger_contract
    (value : jsval) (name : jsstring) (lo hi : Z) :
  let run := validateInteger value name (Some (of_Z lo)) (Some (of_Z hi)) in
  trace run = [] /\
  (forall n, is_int (ToNumber value) n -> (lo <= n <= hi)%Z ->
     run = ret (ToNumber value)) /\
  (forall result, outcome run = Normal result ->
     result = ToNumber value /\
     exists n, is_int result n /\ (lo <= n <= hi)%Z) /\
  (forall n, is_int (ToNumber value) n ->
     validateInteger value name None None = ret (ToNumber value)).
Proof.
  intros run. subst run.
  destruct (isInteger (ToNumber value)) eqn:E.
  - apply isInteger_is_int in E as [n Hn].
    rewrite (validateInteger_is_int _ _ lo hi n Hn).
    destruct (Z.ltb_spec n lo) as [Hlo|Hlo]; [|destruct (Z.ltb_spec hi n) as [Hhi|Hhi]];
      cbn [orb]; split_and!; try done.
    + intros m Hm. rewrite (is_int_unique _ _ _ Hm Hn). lia.
    + intros m Hm. unfold validateInteger. simpl default.
      assert (isInteger (ToNumber value) = true) as -> by (apply isInteger_is_int; eauto).
      by destruct (ToNumber value).
    + intros m Hm. rewrite (is_int_unique _ _ _ Hm Hn). lia.
    + intros m Hm. unfold validateInteger. simpl default.
      assert (isInteger (ToNumber value) = true) as -> by (apply isInteger_is_int; eauto).
      by destruct (ToNumber value).
    + intros result H. cbn in H. simplify_eq. eauto.
    + intros m Hm. unfold validateInteger. simpl default.
      assert (isInteger (ToNumber value) = true) as -> by (apply isInteger_is_int; eauto).
      by destruct (ToNumber value).
  - assert (Hnot : forall n, ~ is_int (ToNumber value) n).
    { intros n Hn. assert (isInteger (ToNumber value) = true); [|congruence].
      apply isInteger_is_int. eauto. }
    rewrite validateInteger_not_integer by done.
    split_and!; try done; intros n Hn; by destruct (Hnot n).
Qed.

Lemma validateInteger_contract_witness :
  let run := validateInteger (JStr (lit "7")) (lit "volume")
               (Some (of_Z 0)) (Some (of_Z 100)) in
  is_int (ToNumber (JStr (lit "7"))) 7%Z /\
  run = ret (ToNumber (JStr (lit "7"))).
Proof.
  split; [vm_compute; reflexivity|].
  apply (proj1 (proj2 (validateInteger_contract (JStr (lit "7")) (lit "volume")
                         0%Z 100%Z)) 7%Z);
    [vm_compute; reflexivity | lia].
Defined.

(** ** The scripts the handler can send *)

Section Inventory.

Variable osascript : executor.

Lemma no_calls_after_throw message script :
  ~ In script (executor_calls (trace (conclude (throw message)))).
Proof. intros []. Qed.

Lemma calls_of_script s script :
  In script (executor_calls (trace (conclude (executeAppleScript osascript s)))) ->
  script = s.
Proof.
  rewrite conclude_trace, executeAppleScript_calls. by intros [<-|[]].
Qed.

(** Whatever the request, a script that reaches the executor is one of
    the inventory. *)
Lemma handler_script_inventory req script :
  In script (executor_calls (trace (handler osascript req))) ->
  sendable (args_of req) script.
Proof.
  intros Hin. destruct (truthy (params_name req)) eqn:Hname;
    [|rewrite handler_falsy in Hin by done; destruct Hin].
  rewrite handler_truthy in Hin by done. fold (args_of req) in Hin.
  set (args := args_of req) in *.
  destruct (switch_case (params_name req)) as [t|];
    [|by apply no_calls_after_throw in Hin].
  destruct t; cbn [run_tool] in Hin;
    try (apply calls_of_script in Hin as ->; apply send_fixed;
         cbn [fixed_scripts In]; tauto).
  - destruct (isValidSpotifyUri (get args "uri")) eqn:Hu; cbn [negb] in Hin;
      [|by apply no_calls_after_throw in Hin].
    destruct (valid_uri_string _ Hu) as (u & Eu & _). rewrite Eu in *.
    destruct (truthy (get args "context")) eqn:Ht.
    + destruct (isValidSpotifyUri (get args "context")) eqn:Hc;
        cbn [negb andb] in Hin; [|by apply no_calls_after_throw in Hin].
      destruct (valid_uri_string _ Hc) as (c & Ec & _). rewrite Ec in *.
      apply calls_of_script in Hin as ->.
      rewrite playScript_with_context by done. by apply send_track_in_context.
    + cbn [andb] in Hin. apply calls_of_script in Hin as ->.
      rewrite playScript_without_context by done. by apply send_track.
  - destruct (isInteger (ToNumber (get args "volume"))) eqn:E.
    + apply isInteger_is_int in E as [n Hn].
      rewrite (validateInteger_is_int _ _ 0 100 n Hn) in Hin.
      destruct (Z.ltb_spec n 0); [by apply no_calls_after_throw in Hin|].
      destruct (Z.ltb_spec 100 n); [by apply no_calls_after_throw in Hin|].
      cbn [orb] in Hin. rewrite bind_ret in Hin.
      apply calls_of_script in Hin as ->.
      rewrite (Number_toString_percent _ n) by (done || lia).
      apply send_volume; [done|lia].
    + rewrite validateInteger_not_integer in Hin.
      * by apply no_calls_after_throw in Hin.
      * intros n Hn. assert (isInteger (ToNumber (get args "volume")) = true);
          [apply isInteger_is_int; eauto|congruence].
  - unfold validateNumber in Hin. simpl default in Hin.
    destruct (ToNumber (get args "position")) as [| |q] eqn:Eq;
      try by apply no_calls_after_throw in Hin.
    cbn [isFinite negb lt gt of_Z orb] in Hin. unfold Qltb in Hin.
    destruct (Qle_bool (inject_Z 0) q) eqn:E; cbn [negb orb] in Hin;
      [|by apply no_calls_after_throw in Hin].
    rewrite bind_ret in Hin. apply calls_of_script in Hin as ->.
    apply send_position; [done|]. by apply Qle_bool_iff in E.
  - destruct (get args "enabled") as [| |b| | |] eqn:Eb;
      try by apply no_calls_after_throw in Hin.
    rewrite validateBoolean_boolean, bind_ret in Hin by done.
    apply calls_of_script in Hin as ->.
    apply (send_flag args "repeating" b); auto.
  - destruct (get args "enabled") as [| |b| | |] eqn:Eb;
      try by apply no_calls_after_throw in Hin.
    rewrite validateBoolean_boolean, bind_ret in Hin by done.
    apply calls_of_script in Hin as ->.
    apply (send_flag args "shuffling" b); auto.
Qed.

End Inventory.

Section InventoryFacts.

Lemma fixed_tokens_harmless args ts :
  forallb fixed_token ts = true -> Forall (harmless args) ts.
Proof.
  intros H. apply List.Forall_forall. intros t Ht.
  apply (proj1 (forallb_forall fixed_token ts) H) in Ht.
  destruct t as [c|l]; cbn [fixed_token harmless] in *.
  - by apply Forall_forallb.
  - left. apply list_elem_of_In. by apply bool_decide_eq_true in Ht.
Qed.

Lemma code_chars_by_check l :
  forallb code_char l = true -> Forall (fun x => code_char x = true) l.
Proof. apply Forall_forallb. Qed.

Lemma numeric_code_chars l :
  Forall (fun c => numeric_char c = true) l -> Forall (fun c => code_char c = true) l.
Proof. intros H. eapply Forall_impl; [done|]. apply numeric_code_char. Qed.

(** A command of code characters gives three harmless tokens. *)
Lemma tell_code_harmless args command :
  Forall (fun c => code_char c = true) command ->
  exists ts, tokens (tell_spotify command) = Some ts /\ Forall (harmless args) ts.
Proof.
  intros H. eexists. split; [by apply tokens_tell_code|].
  apply Forall_cons_2; [|apply Forall_cons_2; [|apply Forall_cons_2; [|constructor]]];
    cbn [harmless].
  - apply code_chars_by_check. vm_compute. reflexivity.
  - left. cbn. auto.
  - apply Forall_app_2; [|done]. apply code_chars_by_check. vm_compute. reflexivity.
Qed.

Lemma within_line_by_check l :
  forallb within_line l = true -> Forall (fun x => within_line x = true) l.
Proof. apply Forall_forallb. Qed.

Lemma uri_char_within_line c : uri_char c = true -> within_line c = true.
Proof.
  intros H. apply uri_char_range in H. unfold within_line.
  rewrite andb_true_iff, !negb_true_iff, !N.eqb_neq. lia.
Qed.

Lemma numeric_char_within_line c : numeric_char c = true -> within_line c = true.
Proof.
  unfold numeric_char, is_digit, within_line.
  rewrite !orb_true_iff, !andb_true_iff, !negb_true_iff, !N.leb_le, !N.eqb_eq,
    !N.eqb_neq. lia.
Qed.

(** A one-line command gives a one-line script. *)
Lemma tell_within_line command :
  Forall (fun c => within_line c = true) command ->
  Forall (fun c => within_line c = true) (tell_spotify command).
Proof.
  intros H. unfold tell_spotify.
  repeat apply Forall_app_2; try done;
    apply within_line_by_check; vm_compute; reflexivity.
Qed.

End InventoryFacts.

(** The scripts the handler can hand to the executor are those of the
    inventory and no others: the eleven fixed ones; [play track] with the
    validated URI (and context) between quotes; [set sound volume to]
    with the digits of an integer from 0 to 100; [set player position to]
    with a finite number from 0 upwards; [set repeating to] and
    [set shuffling to] with [true] or [false]. *)
Theorem handler_sends_only_inventory
    (osascript : executor) (req : request) (script : jsstring) :
  In script (executor_calls (trace (handler osascript req))) ->
  sendable (args_of req) script.
Proof. apply handler_script_inventory. Qed.

Lemma handler_sends_only_inventory_witness :
  let req := call "spotify_set_volume" {[ "volume" := JStr (lit " 7 ") ]} in
  let script := tell_spotify (lit "set sound volume to 7") in
  In script (executor_calls (trace (handler quiet_player req))) /\
  sendable (args_of req) script.
Proof.
  split; [vm_compute; tauto|].
  apply (handler_sends_only_inventory quiet_player). vm_compute; tauto.
Defined.

(** Every script that reaches the executor is well formed for the
    interpreter, and nothing of the request stands in it except, inside
    a literal of its own, the [uri] or the [context] argument exactly as
    given: the other literals are those of the templates, and what stands
    outside literals is made of letters, digits, spaces, line feeds and
    the signs [&], [.], [+], [-]. *)
Theorem scripts_carry_arguments_harmlessly
    (osascript : executor) (req : request) (script : jsstring) :
  In script (executor_calls (trace (handler osascript req))) ->
  exists ts, tokens script = Some ts /\ Forall (harmless (args_of req)) ts.
Proof.
  intros Hin. apply handler_script_inventory in Hin.
  set (args := args_of req) in *.
  destruct Hin as [script Hfixed|u Hu Hvalid Hc|u c Hu Hvalid Hc Hcvalid
                  |n Hn Hrange|q Hq Hpos|property b Hproperty Hb].
  - cbn [fixed_scripts In] in Hfixed.
    repeat (destruct Hfixed as [<-|Hfixed];
            [eexists; split; [vm_compute; reflexivity|];
             apply fixed_tokens_harmless; vm_compute; reflexivity|]).
    done.
  - eexists. split; [by apply tokens_without_context|].
    repeat (apply Forall_cons_2; [cbn [harmless]|]); [..|constructor]; auto;
      try (apply code_chars_by_check; vm_compute; reflexivity).
    left. cbn. auto.
  - eexists. split; [by apply tokens_with_context|].
    repeat (apply Forall_cons_2; [cbn [harmless]|]); [..|constructor]; auto;
      try (apply code_chars_by_check; vm_compute; reflexivity).
    left. cbn. auto.
  - apply tell_code_harmless. apply Forall_app_2.
    + apply code_chars_by_check. vm_compute. reflexivity.
    + apply numeric_code_chars, decimal_numeric.
  - apply tell_code_harmless. apply Forall_app_2.
    + apply code_chars_by_check. vm_compute. reflexivity.
    + by apply numeric_code_chars, Number_toString_numeric.
  - apply tell_code_harmless. apply code_chars_by_check.
    destruct Hproperty as [-> | ->], b; vm_compute; reflexivity.
Qed.

Lemma scripts_carry_arguments_harmlessly_witness :
  let req := call "spotify_play_track"
               {[ "uri" := JStr (lit "spotify:track:4uLU6hMCjMI75M1A2tKUQC") ]} in
  let script := tell_spotify (lit "play track "
                                ++ quoted (lit "spotify:track:4uLU6hMCjMI75M1A2tKUQC")) in
  In script (executor_calls (trace (handler quiet_player req))) /\
  exists ts, tokens script = Some ts /\ Forall (harmless (args_of req)) ts.
Proof.
  split; [vm_compute; tauto|].
  apply (scripts_carry_arguments_harmlessly quiet_player). vm_compute; tauto.
Defined.

(** Only the fixed script of [spotify_get_current_track] has more than
    one line: no argument, whatever it holds, puts a line break into a
    script. *)
Theorem scripts_with_arguments_are_one_line
    (osascript : executor) (req : request) (script : jsstring) :
  In script (executor_calls (trace (handler osascript req))) ->
  script = current_track_script
  \/ Forall (fun c => c <> 10 /\ c <> 13) script.
Proof.
  intros Hin. apply handler_script_inventory in Hin.
  assert (Hline : forall l, Forall (fun c => within_line c = true) l ->
                            Forall (fun c => c <> 10 /\ c <> 13) l).
  { intros l H. eapply Forall_impl; [done|]. intros c. unfold within_line.
    rewrite andb_true_iff, !negb_true_iff, !N.eqb_neq. done. }
  destruct Hin as [script Hfixed|u Hu Hvalid Hc|u c Hu Hvalid Hc Hcvalid
                  |n Hn Hrange|q Hq Hpos|property b Hproperty Hb].
  - cbn [fixed_scripts In] in Hfixed.
    repeat (destruct Hfixed as [<-|Hfixed];
            [first [by left
                   |right; apply Hline, within_line_by_check;
                    vm_compute; reflexivity]|]).
    done.
  - right. apply Hline, tell_within_line. unfold quoted.
    repeat first [apply Forall_app_2 | apply Forall_cons_2]; try done;
      try (apply within_line_by_check; vm_compute; reflexivity).
    eapply Forall_impl; [by apply valid_uri_chars|]. apply uri_char_within_line.
  - right. apply Hline, tell_within_line. unfold quoted.
    repeat first [apply Forall_app_2 | apply Forall_cons_2]; try done;
      try (apply within_line_by_check; vm_compute; reflexivity);
      (eapply Forall_impl; [by apply valid_uri_chars|]; apply uri_char_within_line).
  - right. apply Hline, tell_within_line. apply Forall_app_2.
    + apply within_line_by_check. vm_compute. reflexivity.
    + eapply Forall_impl; [apply decimal_numeric|]. apply numeric_char_within_line.
  - right. apply Hline, tell_within_line. apply Forall_app_2.
    + apply within_line_by_check. vm_compute. reflexivity.
    + eapply Forall_impl; [by apply Number_toString_numeric|].
      apply numeric_char_within_line.
  - right. apply Hline, tell_within_line, within_line_by_check.
    destruct Hproperty as [-> | ->], b; vm_compute; reflexivity.
Qed.

Lemma scripts_with_arguments_are_one_line_witness :
  let req := call "spotify_set_position" {[ "position" := JNum (binary64 12.5) ]} in
  let script := tell_spotify (lit "set player position to 12.5") in
  In script (executor_calls (trace (handler quiet_player req))) /\
  (script = current_track_script \/ Forall (fun c => c <> 10 /\ c <> 13) script).
Proof.
  split; [vm_compute; tauto|].
  apply (scripts_with_arguments_are_one_line quiet_player
           (call "spotify_set_position" {[ "position" := JNum (binary64 12.5) ]})).
  vm_compute; tauto.
Defined.

(** ** More on escaping *)

Section EscapingMore.

(** Induction along the loop of [quote_code_points]. *)
Lemma quote_code_points_ind (P : jsstring -> jsstring -> Prop) :
  P [] [] ->
  (forall hi lo t r,
      is_leading_surrogate hi = true -> is_trailing_surrogate lo = true ->
      P t r -> P (hi :: lo :: t) (hi :: lo :: r)) ->
  (forall c t r,
      is_leading_surrogate c = true \/ is_trailing_surrogate c = true ->
      P t r -> P (c :: t) (UnicodeEscape c ++ r)) ->
  (forall c t r,
      is_leading_surrogate c = false -> is_trailing_surrogate c = false ->
      P t r -> P (c :: t) (quote_code_point c ++ r)) ->
  forall s, P s (quote_code_points s).
Proof.
  intros Hnil Hpair Hlone Hunit s.
  assert (H : forall n s, (length s <= n)%nat -> P s (quote_code_points s));
    [|by apply (H (length s))].
  clear s. induction n as [|n IH]; intros s Hlen.
  - destruct s; [done|simpl in Hlen; lia].
  - destruct s as [|c t]; [done|]. cbn [length] in Hlen.
    cbn [quote_code_points]. destruct (is_leading_surrogate c) eqn:Hl.
    + destruct t as [|d t'].
      * rewrite <- (app_nil_r (UnicodeEscape c)). apply Hlone; auto.
      * destruct (is_trailing_surrogate d) eqn:Hd.
        -- apply Hpair; [done..|]. apply IH. cbn [length] in Hlen. lia.
        -- apply Hlone; [auto|]. apply IH. lia.
    + destruct (is_trailing_surrogate c) eqn:Ht.
      * apply Hlone; [auto|]. apply IH. lia.
      * apply Hunit; [done..|]. apply IH. lia.
Qed.

Lemma hex_digit_printable d : 32 <= hex_digit d.
Proof. unfold hex_digit. destruct (d <? 10); lia. Qed.

Lemma quote_code_point_printable c :
  Forall (fun x => 32 <= x) (quote_code_point c).
Proof.
  unfold quote_code_point, UnicodeEscape, backslash, dq.
  repeat match goal with
         | |- context [if ?b then _ else _] => destruct b eqn:?
         end;
    repeat constructor; try apply hex_digit_printable; try lia.
  by apply N.ltb_ge.
Qed.

Lemma UnicodeEscape_printable c : Forall (fun x => 32 <= x) (UnicodeEscape c).
Proof.
  unfold UnicodeEscape, backslash.
  repeat constructor; try apply hex_digit_printable; lia.
Qed.

Lemma surrogate_printable c :
  is_leading_surrogate c = true \/ is_trailing_surrogate c = true -> 32 <= c.
Proof.
  unfold is_leading_surrogate, is_trailing_surrogate.
  rewrite !andb_true_iff, !N.leb_le. lia.
Qed.

(** Hexadecimal digits are read back. *)
Lemma hex_value_hex_digit d : d < 16 -> hex_value (hex_digit d) = Some d.
Proof.
  intros Hd. unfold hex_digit, hex_value, is_digit.
  destruct (N.ltb_spec d 10).
  - replace (48 <=? 48 + d) with true by (symmetry; apply N.leb_le; lia).
    replace (48 + d <=? 57) with true by (symmetry; apply N.leb_le; lia).
    cbn [andb]. f_equal. lia.
  - replace (87 + d <=? 57) with false by (symmetry; apply N.leb_gt; lia).
    rewrite andb_false_r.
    replace (97 <=? 87 + d) with true by (symmetry; apply N.leb_le; lia).
    replace (87 + d <=? 102) with true by (symmetry; apply N.leb_le; lia).
    cbn [andb]. f_equal. lia.
Qed.

Lemma four_hex_digits c :
  c < 65536 ->
  (c / 4096 mod 16) * 4096 + (c / 256 mod 16) * 256 + (c / 16 mod 16) * 16
    + c mod 16 = c.
Proof.
  intros Hc.
  assert (H1 := N.div_mod' c 16).
  assert (H2 := N.div_mod' (c / 16) 16).
  assert (H3 := N.div_mod' (c / 256) 16).
  assert (H4 := N.div_mod' (c / 4096) 16).
  rewrite N.Div0.div_div in H2, H3 by lia. change (16 * 16) with 256 in H2.
  rewrite N.Div0.div_div in H4 by lia.
  change (256 * 16) with 4096 in H3. change (4096 * 16) with 65536 in H4.
  rewrite (N.div_small c 65536) in H4 by done.
  assert (B1 : c mod 16 < 16) by (apply N.mod_upper_bound; lia).
  revert H1 H2 H3 H4 B1.
  generalize (c mod 16), (c / 16 mod 16), (c / 256 mod 16), (c / 4096 mod 16),
    (c / 16), (c / 256), (c / 4096).
  intros. lia.
Qed.

Lemma json_unquote_UnicodeEscape c r :
  c < 65536 ->
  json_unquote (UnicodeEscape c ++ r) = cons c <$> json_unquote r.
Proof.
  intros Hc. unfold UnicodeEscape. cbn [app json_unquote].
  change (backslash =? backslash) with true. change (117 =? 117) with true.
  cbv iota.
  rewrite !hex_value_hex_digit by (apply N.mod_upper_bound; lia).
  by rewrite four_hex_digits.
Qed.

Lemma surrogate_code_unit c :
  is_leading_surrogate c = true \/ is_trailing_surrogate c = true ->
  c < 65536 /\ (c =? backslash) = false.
Proof.
  unfold is_leading_surrogate, is_trailing_surrogate, backslash.
  rewrite !andb_true_iff, !N.leb_le, N.eqb_neq. lia.
Qed.

Lemma json_unquote_quote_code_point c r :
  json_unquote (quote_code_point c ++ r) = cons c <$> json_unquote r.
Proof.
  unfold quote_code_point.
  destruct (N.eqb_spec c 8) as [->|H8]; [done|].
  destruct (N.eqb_spec c 9) as [->|H9]; [done|].
  destruct (N.eqb_spec c 10) as [->|H10]; [done|].
  destruct (N.eqb_spec c 12) as [->|H12]; [done|].
  destruct (N.eqb_spec c 13) as [->|H13]; [done|].
  destruct (N.eqb_spec c dq) as [->|Hq]; [done|].
  destruct (N.eqb_spec c backslash) as [->|Hb]; [done|].
  destruct (N.ltb_spec c 32) as [Hlt|Hge].
  - apply json_unquote_UnicodeEscape. lia.
  - cbn [app json_unquote]. by destruct (N.eqb_spec c backslash).
Qed.

(** The JSON escapes of a string are read back as the string. *)
Lemma json_unquote_quote_code_points s :
  json_unquote (quote_code_points s) = Some s.
Proof.
  apply (quote_code_points_ind (fun s r => json_unquote r = Some s)).
  - done.
  - intros hi lo t r Hhi Hlo IH. cbn [json_unquote].
    destruct (surrogate_code_unit hi (or_introl Hhi)) as [_ ->].
    destruct (surrogate_code_unit lo (or_intror Hlo)) as [_ ->].
    by rewrite IH.
  - intros c t r Hc IH. destruct (surrogate_code_unit c Hc) as [Hlt _].
    by rewrite json_unquote_UnicodeEscape, IH.
  - intros c t r _ _ IH. by rewrite json_unquote_quote_code_point, IH.
Qed.

(** What the scanner makes of an escaped string followed by more text:
    it goes on behind the string with the string in hand, or gives up. *)
Lemma scan_escaped s rest contents ts :
  scan (quote_code_points s ++ rest) (InLiteral contents) = Some ts ->
  scan rest (InLiteral (contents ++ s)) = Some ts.
Proof.
  intros H. pose proof (scan_readable (length s) s rest contents ts (le_n _) H).
  by rewrite scan_representable in H.
Qed.

End EscapingMore.

Section Confinement.

Lemma escapeAppleScriptString_text_of v :
  escapeAppleScriptString v = quote_code_points (text_of v).
Proof.
  destruct v; try done. apply escapeAppleScriptString_string.
Qed.

Lemma quote_code_points_nonempty c t : quote_code_points (c :: t) <> [].
Proof.
  cbn [quote_code_points].
  destruct (is_leading_surrogate c); [destruct t as [|d t']|].
  - done.
  - by destruct (is_trailing_surrogate d).
  - destruct (is_trailing_surrogate c); [done|].
    unfold quote_code_point.
    repeat match goal with
           | |- context [if ?b then _ else _] => destruct b
           end; done.
Qed.

(** Code, then an escaped string between quotes, then more script: if
    the interpreter reads it at all, it reads the code, one literal
    holding the string, and then the rest. *)
Lemma scan_code_escaped pre s rest ts :
  Forall (fun c => c <> dq) pre ->
  scan (pre ++ quoted (quote_code_points s) ++ rest) (InCode []) = Some ts ->
  exists ts', scan rest (InCode []) = Some ts' /\ ts = code pre ++ Literal s :: ts'.
Proof.
  intros Hpre H. rewrite scan_code in H by done. unfold quoted in H.
  cbn [app scan] in H. change (dq =? dq) with true in H. cbv iota in H.
  destruct (scan ((quote_code_points s ++ [dq]) ++ rest) (InLiteral [])) as [ts0|] eqn:E;
    [|done].
  rewrite <- app_assoc in E. apply scan_escaped in E.
  cbn [app scan] in E. change (dq =? dq) with true in E. cbv iota in E.
  destruct (scan rest (InCode [])) as [ts'|]; [|done].
  exists ts'. split; [done|]. cbn in E, H. by simplify_eq.
Qed.

Lemma Version001_escape_valid_uri s :
  isValidSpotifyUri (JStr s) = true -> Version001.escapeAppleScriptString (JStr s) = s.
Proof.
  intros H. cbn [Version001.escapeAppleScriptString]. rewrite replace_all_twice.
  pose proof (valid_uri_plain s H) as Hplain. clear H.
  induction Hplain as [|c t [Hq Hb] _ IH]; [done|]. cbn [flat_map].
  destruct (N.eqb_spec c backslash); [done|]. destruct (N.eqb_spec c dq); [done|].
  by rewrite IH.
Qed.

End Confinement.

(** The result of [escapeAppleScriptString] never holds a control
    character: whatever the input, no line break and no other character
    below the space comes out unescaped. *)
Theorem escape_output_is_printable (v : jsval) :
  Forall (fun c => 32 <= c) (escapeAppleScriptString v).
Proof.
  rewrite escapeAppleScriptString_text_of.
  apply (quote_code_points_ind (fun _ r => Forall (fun c => 32 <= c) r)).
  - constructor.
  - intros hi lo t r Hhi Hlo IH.
    repeat constructor; [apply surrogate_printable..|]; auto.
  - intros c t r _ IH. apply Forall_app_2; [apply UnicodeEscape_printable|done].
  - intros c t r _ _ IH. apply Forall_app_2; [apply quote_code_point_printable|done].
Qed.

(** Escaping tells strings apart: two different strings never have the
    same escaped form. *)
Theorem escapeAppleScriptString_injective (s s' : jsstring) :
  escapeAppleScriptString (JStr s) = escapeAppleScriptString (JStr s') ->
  s = s'.
Proof.
  rewrite !escapeAppleScriptString_string. intros H.
  pose proof (json_unquote_quote_code_points s) as Hs.
  rewrite H, json_unquote_quote_code_points in Hs. by simplify_eq.
Qed.

Lemma escapeAppleScriptString_injective_witness :
  escapeAppleScriptString (JStr (lit "a" ++ nl))
  = escapeAppleScriptString (JStr [97; 10]) /\
  lit "a" ++ nl = [97; 10].
Proof.
  split; [reflexivity|].
  apply (escapeAppleScriptString_injective (lit "a" ++ nl) [97; 10]). reflexivity.
Defined.

(** On a URI that the validator accepts, escaping changes nothing, in the
    current server and in version 0.0.1 alike. *)
Theorem escaping_leaves_valid_uris_unchanged (s : jsstring) :
  isValidSpotifyUri (JStr s) = true ->
  escapeAppleScriptString (JStr s) = s /\
  Version001.escapeAppleScriptString (JStr s) = s.
Proof.
  intros H. split; [by apply escape_valid_uri|by apply Version001_escape_valid_uri].
Qed.

Lemma escaping_leaves_valid_uris_unchanged_witness :
  let s := lit "spotify:album:1A2b3C" in
  isValidSpotifyUri (JStr s) = true /\
  escapeAppleScriptString (JStr s) = s /\
  Version001.escapeAppleScriptString (JStr s) = s.
Proof.
  split; [vm_compute; reflexivity|].
  apply (escaping_leaves_valid_uris_unchanged (lit "spotify:album:1A2b3C")).
  vm_compute; reflexivity.
Defined.

(** Escaping alone keeps the arguments of [play track] in their place:
    for any two values, validated or not, the script that [playScript]
    builds is read by the interpreter, if it is read at all, as the
    template with the text of [uri] in one literal and, when the context
    is a non-empty string, its text in another. *)
Theorem playScript_confines_arguments (uri context : jsval) (ts : list token) :
  tokens (playScript uri context) = Some ts ->
  ts = [Code (lit "tell application "); Literal (lit "Spotify");
        Code (lit " to play track "); Literal (text_of uri)]
       ++ match context with
          | JStr ((_ :: _) as c) => [Code (lit " in context "); Literal c]
          | _ => []
          end.
Proof.
  unfold tokens, playScript. rewrite !escapeAppleScriptString_text_of.
  assert (Hshort :
    scan (tell_spotify (lit "play track " ++ quoted (quote_code_points (text_of uri))))
         (InCode []) = Some ts ->
    ts = [Code (lit "tell application "); Literal (lit "Spotify");
          Code (lit " to play track "); Literal (text_of uri)]).
  { change (tell_spotify (lit "play track " ++ quoted (quote_code_points (text_of uri))))
      with (lit "tell application " ++ quoted (lit "Spotify")
              ++ lit " to play track " ++ quoted (quote_code_points (text_of uri))).
    rewrite scan_code_literal by (vm_compute; repeat constructor; done).
    rewrite <- (app_nil_r (quoted (quote_code_points (text_of uri)))).
    destruct (scan _ (InCode [])) as [ts1|] eqn:E; [|done].
    apply scan_code_escaped in E as (ts' & E' & ->);
      [|by (vm_compute; repeat constructor)].
    cbn in E'. simplify_eq. intros H. cbn in H. by simplify_eq. }
  destruct context as [| |b|n|[|c0 c]|repr];
    try (match goal with
         | |- context [truthy (if truthy ?c then ?a else ?b)] =>
             replace (truthy (if truthy c then a else b)) with false
               by (cbn [text_of quote_code_points]; by destruct (truthy c))
         end;
         intros H; rewrite app_nil_r; by apply Hshort).
  cbn [text_of truthy]. destruct (quote_code_points (c0 :: c)) as [|e0 e] eqn:Ee;
    [by destruct (quote_code_points_nonempty c0 c)|].
  cbn [truthy ToString]. rewrite <- Ee. clear Ee e0 e Hshort.
  change (tell_spotify (lit "play track " ++ quoted (quote_code_points (text_of uri))
                          ++ lit " in context " ++ quoted (quote_code_points (c0 :: c))))
    with (lit "tell application " ++ quoted (lit "Spotify")
            ++ lit " to play track " ++ quoted (quote_code_points (text_of uri))
            ++ lit " in context " ++ quoted (quote_code_points (c0 :: c))).
  rewrite scan_code_literal by (vm_compute; repeat constructor; done).
  rewrite <- (app_nil_r (quoted (quote_code_points (c0 :: c)))).
  destruct (scan _ (InCode [])) as [ts1|] eqn:E; [|done].
  apply scan_code_escaped in E as (ts2 & E2 & ->);
    [|by (vm_compute; repeat constructor)].
  apply scan_code_escaped in E2 as (ts3 & E3 & ->);
    [|by (vm_compute; repeat constructor)].
  cbn in E3. simplify_eq. intros H. cbn in H. by simplify_eq.
Qed.

Lemma playScript_confines_arguments_witness :
  let uri := JStr (lit "x" ++ [dq] ++ lit " & do shell script " ++ [dq] ++ lit "id") in
  let ts := [Code (lit "tell application "); Literal (lit "Spotify");
             Code (lit " to play track "); Literal (text_of uri)] in
  tokens (playScript uri JUndefined) = Some ts /\
  ts = [Code (lit "tell application "); Literal (lit "Spotify");
        Code (lit " to play track "); Literal (text_of uri)] ++ [].
Proof.
  split; [vm_compute; reflexivity|].
  apply (playScript_confines_arguments
           (JStr (lit "x" ++ [dq] ++ lit " & do shell script " ++ [dq] ++ lit "id"))
           JUndefined).
  vm_compute; reflexivity.
Defined.

Lemma parse_literal_escape_witness :
  parse_literal (quoted (escapeAppleScriptString (JStr [97; 9; dq]))) = Some [97; 9; dq]
  /\ representable [97; 9; dq].
Proof.
  split; [reflexivity|].
  apply (proj1 (parse_literal_escape [97; 9; dq])). reflexivity.
Defined.

Lemma escape_stays_in_literal_witness :
  let s := lit "x" ++ [dq; backslash] ++ lit "y" in
  tokens (quoted (escapeAppleScriptString (JStr s))) = Some [Literal s] /\
  [Literal s] = [Literal s].
Proof.
  split; [reflexivity|].
  apply (escape_stays_in_literal (lit "x" ++ [dq; backslash] ++ lit "y")).
  reflexivity.
Defined.

(** ** The two versions of the server *)

Section Versions.

Variable osascript : executor.

Lemma handler001_truthy req :
  truthy (params_name req) = true ->
  Version001Handler.handler osascript req =
  conclude match switch_case (params_name req) with
           | Some t => Version001Handler.run_tool osascript t (args_of req)
           | None => throw (lit "Unknown tool: " ++ ToString (params_name req))
           end.
Proof.
  intros Hname. unfold Version001Handler.handler. rewrite Hname. simpl negb.
  cbv iota. fold (args_of req).
  generalize (match switch_case (params_name req) with
              | Some t => Version001Handler.run_tool osascript t (args_of req)
              | None => throw (lit "Unknown tool: " ++ ToString (params_name req))
              end).
  intros [t [r|e]]; unfold conclude; cbn; by rewrite app_nil_r.
Qed.

Lemma playScript_versions uri context :
  isValidSpotifyUri uri = true ->
  truthy context = false \/ isValidSpotifyUri context = true ->
  Version001Handler.playScript uri context = playScript uri context.
Proof.
  intros Hu Hc. destruct (valid_uri_string _ Hu) as (u & -> & _).
  unfold Version001Handler.playScript, playScript.
  rewrite Version001_escape_valid_uri, escape_valid_uri by done.
  destruct (truthy context) eqn:Ht; [|done].
  destruct Hc as [?|Hc]; [done|].
  destruct (valid_uri_string _ Hc) as (c & -> & _).
  by rewrite Version001_escape_valid_uri, escape_valid_uri.
Qed.

Lemma number_typed v : typeof v = TyNumber -> exists n, v = JNum n.
Proof. destruct v; try done. eauto. Qed.

End Versions.

(** The validators of the current server only ever refuse: on a request
    for which it reaches the executor, and whose [volume] and [position]
    are numbers where given, version 0.0.1 does exactly the same, events
    and envelope. *)
Theorem versions_agree_where_the_new_accepts (osascript : executor) (req : request) :
  executor_calls (trace (handler osascript req)) <> [] ->
  is_number_or_absent (get (args_of req) "volume") ->
  is_number_or_absent (get (args_of req) "position") ->
  Version001Handler.handler osascript req = handler osascript req.
Proof.
  intros Hcalls Hvol Hpos. destruct (truthy (params_name req)) eqn:Hname;
    [|by rewrite handler_falsy in Hcalls].
  rewrite handler_truthy in * by done. rewrite handler001_truthy by done.
  fold (args_of req) in *. set (args := args_of req) in *.
  destruct (switch_case (params_name req)) as [t|]; [|done].
  destruct t; cbn [run_tool Version001Handler.run_tool] in *; try done.
  - destruct (isValidSpotifyUri (get args "uri")) eqn:Hu; [|done]. cbn [negb] in *.
    destruct (truthy (get args "context")) eqn:Ht.
    + destruct (isValidSpotifyUri (get args "context")) eqn:Hc; [|done].
      cbn [negb andb]. rewrite playScript_versions; auto.
    + cbn [andb]. rewrite playScript_versions; auto.
  - destruct Hvol as [Hty|E]; [|rewrite E in Hcalls; exfalso; apply Hcalls; reflexivity].
    apply number_typed in Hty as [n E]. rewrite E in *. cbn [ToString].
    unfold validateInteger in *. simpl default in *. cbn [ToNumber] in *.
    destruct (negb (isInteger n)); [done|].
    destruct (lt n (of_Z 0) || gt n (of_Z 100)); [done|]. by rewrite bind_ret.
  - destruct Hpos as [Hty|E]; [|rewrite E in Hcalls; exfalso; apply Hcalls; reflexivity].
    apply number_typed in Hty as [n E]. rewrite E in *. cbn [ToString].
    unfold validateNumber in *. simpl default in *. cbn [ToNumber] in *.
    destruct (negb (isFinite n)); [done|].
    destruct (lt n (of_Z 0) || gt n (Infinity false)); [done|]. by rewrite bind_ret.
  - destruct (get args "enabled") as [| |b| | |]; try done.
    by rewrite validateBoolean_boolean, bind_ret.
  - destruct (get args "enabled") as [| |b| | |]; try done.
    by rewrite validateBoolean_boolean, bind_ret.
Qed.

Lemma versions_agree_where_the_new_accepts_witness :
  let req := call "spotify_set_volume" {[ "volume" := JNum (of_Z 40) ]} in
  executor_calls (trace (handler quiet_player req)) <> [] /\
  Version001Handler.handler quiet_player req = handler quiet_player req.
Proof.
  split; [vm_compute; discriminate|].
  apply (versions_agree_where_the_new_accepts quiet_player).
  - vm_compute; discriminate.
  - left; reflexivity.
  - right; reflexivity.
Defined.

(** Version 0.0.1 checks neither numbers nor booleans: whatever value
    [volume] holds is written into the script as it prints, so the text
    of a string argument is read by the interpreter as code. *)
Theorem Version001_writes_volume_unchecked
    (osascript : executor) (args : gmap string jsval) (s : jsstring) :
  get args "volume" = JStr s ->
  Forall (fun c => c <> dq) s ->
  let script := lit "tell application " ++ quoted (lit "Spotify")
                  ++ lit " to set sound volume to " ++ s in
  executor_calls
    (trace (Version001Handler.handler osascript (call "spotify_set_volume" args)))
  = [script] /\
  tokens script =
  Some [Code (lit "tell application "); Literal (lit "Spotify");
        Code (lit " to set sound volume to " ++ s)].
Proof.
  intros Hv Hs script. subst script. split.
  - rewrite handler001_truthy by reflexivity.
    change (switch_case (params_name (call "spotify_set_volume" args)))
      with (Some spotify_set_volume).
    cbn [Version001Handler.run_tool]. rewrite conclude_trace.
    change (args_of (call "spotify_set_volume" args)) with args.
    rewrite Hv. apply executeAppleScript_calls.
  - unfold tokens. rewrite scan_code_literal by (vm_compute; repeat constructor; done).
    replace (lit " to set sound volume to " ++ s)
      with ((lit " to set sound volume to " ++ s) ++ []) at 1 by apply app_nil_r.
    rewrite scan_code; [done|].
    apply Forall_app_2; [by (vm_compute; repeat constructor)|done].
Qed.

Lemma Version001_writes_volume_unchecked_witness :
  let s := lit "0" ++ nl ++ lit "quit" in
  let args : gmap string jsval := {[ "volume" := JStr s ]} in
  let script := lit "tell application " ++ quoted (lit "Spotify")
                  ++ lit " to set sound volume to " ++ s in
  executor_calls
    (trace (Version001Handler.handler quiet_player (call "spotify_set_volume" args)))
  = [script] /\
  tokens script =
  Some [Code (lit "tell application "); Literal (lit "Spotify");
        Code (lit " to set sound volume to " ++ s)].
Proof.
  apply (Version001_writes_volume_unchecked quiet_player _ (lit "0" ++ nl ++ lit "quit")).
  - vm_compute; reflexivity.
  - vm_compute; repeat constructor; discriminate.
Defined.

(** ** The text of a success envelope *)

Section Trimming.

Lemma trim_start_head s :
  match trim_start s with [] => True | c :: _ => is_white_space c = false end.
Proof.
  induction s as [|c s IH]; [done|]. cbn [trim_start].
  by destruct (is_white_space c) eqn:E.
Qed.

Lemma trim_start_fixed s :
  match s with [] => True | c :: _ => is_white_space c = false end ->
  trim_start s = s.
Proof. destruct s as [|c s]; [done|]. cbn [trim_start]. by intros ->. Qed.

Lemma trim_start_snoc l c :
  is_white_space c = false -> trim_start (l ++ [c]) = trim_start l ++ [c].
Proof.
  intros Hc. induction l as [|d l IH]; cbn [app trim_start].
  - by rewrite Hc.
  - by destruct (is_white_space d).
Qed.

(** What [trim] returns: nothing, or a first character that is not white
    space followed by the reverse of a string that does not start with
    white space either. *)
Lemma trim_shape s :
  trim s = []
  \/ exists c y, is_white_space c = false /\ trim_start y = y /\ trim s = c :: rev y.
Proof.
  unfold trim, trim_end. pose proof (trim_start_head s) as Hh.
  destruct (trim_start s) as [|c t]; [by left|]. right.
  cbn [rev]. rewrite trim_start_snoc by done. rewrite rev_app_distr. cbn [rev app].
  exists c, (trim_start (rev t)). split; [done|]. split; [|done].
  apply trim_start_fixed, trim_start_head.
Qed.

Lemma trim_idempotent s : trim (trim s) = trim s.
Proof.
  destruct (trim_shape s) as [->|(c & y & Hc & Hy & ->)]; [done|].
  unfold trim, trim_end. cbn [trim_start]. rewrite Hc.
  cbn [rev]. rewrite rev_involutive, trim_start_snoc, Hy by done.
  rewrite rev_app_distr. done.
Qed.

Lemma trim_ends s c :
  head (trim s) = Some c \/ last (trim s) = Some c -> is_white_space c = false.
Proof.
  destruct (trim_shape s) as [->|(d & y & Hd & Hy & ->)]; [by intros [|]|].
  intros [H|H].
  - cbn in H. by simplify_eq.
  - pose proof (trim_start_head y) as Hh. rewrite Hy in Hh.
    destruct y as [|e y']; cbn [rev] in H.
    + cbn in H. by simplify_eq.
    + change (d :: rev y' ++ [e]) with ((d :: rev y') ++ [e]) in H.
      rewrite last_snoc in H. by simplify_eq.
Qed.

End Trimming.

(** The text of a success envelope is trimmed: it neither begins nor
    ends with white space or a line break, and trimming it again changes
    nothing. *)
Theorem success_text_is_trimmed (osascript : executor) (req : request) (e : envelope) :
  outcome (handler osascript req) = Normal e ->
  isError e = None ->
  exists t,
    content e = [ {| type := lit "text"; text := t |} ] /\
    trim t = t /\
    forall c, head t = Some c \/ last t = Some c -> is_white_space c = false.
Proof.
  intros Hout Herr. destruct (truthy (params_name req)) eqn:Hname;
    [|by rewrite handler_falsy in Hout].
  destruct (handler_cases req Hname) as [[message H]|[script H]];
    rewrite H in Hout.
  - cbn in Hout. by simplify_eq.
  - rewrite conclude_outcome, executeAppleScript_outcome in Hout.
    destruct (osascript script) as [out err|m]; simplify_eq.
    exists (trim out). split; [done|]. split; [apply trim_idempotent|apply trim_ends].
Qed.

Lemma success_text_is_trimmed_witness :
  let player : executor := fun _ => Exited (nl ++ lit "  paused " ++ nl) [] in
  let req := call "spotify_get_player_state" ∅ in
  outcome (handler player req) = Normal (success (lit "paused")) /\
  exists t,
    content (success (lit "paused")) = [ {| type := lit "text"; text := t |} ] /\
    trim t = t /\
    forall c, head t = Some c \/ last t = Some c -> is_white_space c = false.
Proof.
  split; [reflexivity|].
  apply (success_text_is_trimmed (fun _ => Exited (nl ++ lit "  paused " ++ nl) [])
           (call "spotify_get_player_state" ∅)); reflexivity.
Defined.

(** ** The console, and the read-only tools *)

(** What the handler writes to the console is decided by the executor's
    answer to the one script: nothing after a quiet exit; after an exit
    that wrote diagnostics, their text under the label
    [AppleScript stderr:]; after a failure, the [Error] object that
    [execFile] rejected with, under the label
    [Failed to execute AppleScript:]. *)
Theorem handler_console (osascript : executor) (req : request) (script : jsstring) :
  executor_calls (trace (handler osascript req)) = [script] ->
  trace (handler osascript req) =
  ExecFile (lit "osascript") [lit "-e"; script] 30000 (1024 * 1024)
    :: match osascript script with
       | Exited _ [] => []
       | Exited _ stderr =>
           [ConsoleError (lit "AppleScript stderr:") (LoggedText stderr)]
       | Failed message =>
           [ConsoleError (lit "Failed to execute AppleScript:")
                         (LoggedError message)]
       end.
Proof.
  intros Hcalls. destruct (truthy (params_name req)) eqn:Hname;
    [|by rewrite handler_falsy in Hcalls].
  destruct (handler_cases req Hname) as [[message H]|[script' H]];
    rewrite H in *; [done|].
  rewrite conclude_trace in *. rewrite executeAppleScript_calls in Hcalls.
  simplify_eq. rewrite executeAppleScript_run. cbn [trace fst].
  by destruct (osascript script) as [out [|]|].
Qed.

Lemma handler_console_witness :
  let player : executor := fun _ => Failed (lit "Command failed") in
  let req := call "spotify_play" ∅ in
  let script := tell_spotify (lit "play") in
  executor_calls (trace (handler player req)) = [script] /\
  trace (handler player req) =
  [ExecFile (lit "osascript") [lit "-e"; script] 30000 (1024 * 1024);
   ConsoleError (lit "Failed to execute AppleScript:")
                (LoggedError (lit "Command failed"))].
Proof.
  split; [reflexivity|].
  apply (handler_console (fun _ => Failed (lit "Command failed"))
           (call "spotify_play" ∅) (tell_spotify (lit "play"))).
  reflexivity.
Defined.

(** A tool that the catalogue marks as read-only declares no parameter
    and only ever asks: its script is the fixed one of
    [spotify_get_current_track] or tells Spotify to [return] something. *)
Theorem read_only_tools_only_ask
    (osascript : executor) (d : descriptor) (args : gmap string jsval)
    (script : jsstring) :
  In d tools ->
  readOnlyHint d = true ->
  In script (executor_calls (trace (handler osascript (call (name d) args)))) ->
  properties d = [] /\
  (script = current_track_script
   \/ exists query, script = tell_spotify (lit "return " ++ query)).
Proof.
  intros Hin Hro Hscript. unfold tools in Hin. cbn [In] in Hin.
  repeat (destruct Hin as [<-|Hin];
          [first [discriminate Hro
                 |cbn [name no_params properties] in *;
                  erewrite handler_call in Hscript by reflexivity;
                  cbn [snd run_tool] in Hscript;
                  apply calls_of_script in Hscript as ->;
                  split; [reflexivity|];
                  first [by left | right; eexists; reflexivity]]|]).
  done.
Qed.

Lemma read_only_tools_only_ask_witness :
  let d := no_params "spotify_get_repeat" "Get repeat status" true None in
  let script := tell_spotify (lit "return repeating") in
  In d tools /\
  In script (executor_calls (trace (handler quiet_player (call (name d) ∅)))) /\
  properties d = [] /\
  (script = current_track_script
   \/ exists query, script = tell_spotify (lit "return " ++ query)).
Proof.
  split; [vm_compute; tauto|]. split; [vm_compute; tauto|].
  apply (read_only_tools_only_ask quiet_player
           (no_params "spotify_get_repeat" "Get repeat status" true None) ∅).
  - vm_compute; tauto.
  - reflexivity.
  - vm_compute; tauto.
Defined.
